(** * wrapper-gql-client: batched GraphQL registry and reactive state store

    A shallow embedding of the query registry ([query.jsx]), the mutation
    registry ([mutation.jsx]), the client ([./client]), the utility layer
    ([./utils]) and the state store ([./query-state]).  JavaScript objects
    used as dictionaries become finite maps, arrays become lists (with
    [None] for the holes that [delete] leaves behind), methods become
    functions over the object they are called on, exceptions become an
    error monad, and a promise becomes the way it settles.  A dictionary
    holds its own properties only (nothing inherited from
    [Object.prototype]).  Callbacks are opaque: calling one is recorded, and
    it is taken to return without touching the registry or the store. *)

From Stdlib Require Import ZArith String Ascii List Bool Lia.
From stdpp Require Import base option list gmap strings pretty fin_maps.

Local Open Scope Z_scope.
Local Set Warnings "-register-all".

(** ** JavaScript data *)

Module JS.

(** Plain data: what JSON carries, plus [undefined] and [NaN].  Numbers are
    integers.  Function values are kept apart (see [fn]). *)
Inductive value :=
| VUndef
| VNull
| VBool (b : bool)
| VNum (z : Z)
| VNaN
| VStr (s : string)
| VArr (elems : list value)
| VObj (props : list (string * value)).

(** A function value: its [name] property and its identity. *)
Record fn := { fn_name : string; fn_id : nat }.

Inductive error :=
| ReferenceError (ident : string)
| TypeError (what : string)
| Error (message : string).

Inductive result (A : Type) :=
| Ok (a : A)
| Throw (e : error).
Arguments Ok {A} a.
Arguments Throw {A} e.

Definition bind {A B} (m : result A) (k : A -> result B) : result B :=
  match m with
  | Ok a => k a
  | Throw e => Throw e
  end.

(** ToBoolean *)
Definition truthy (v : value) : bool :=
  match v with
  | VUndef | VNull | VNaN => false
  | VBool b => b
  | VNum z => negb (z =? 0)
  | VStr s => negb (String.eqb s "")
  | VArr _ | VObj _ => true
  end.

Definition nullish (v : value) : bool :=
  match v with
  | VUndef | VNull => true
  | _ => false
  end.

(** [a || b] *)
Definition or_else (a b : value) : value := if truthy a then a else b.

Fixpoint assoc (k : string) (l : list (string * value)) : value :=
  match l with
  | [] => VUndef
  | (k', v) :: l' => if String.eqb k k' then v else assoc k l'
  end.

(** [obj[k] = v] on an object kept as an ordered property list. *)
Fixpoint assign (k : string) (v : value) (l : list (string * value))
  : list (string * value) :=
  match l with
  | [] => [(k, v)]
  | (k', v') :: l' =>
      if String.eqb k k' then (k, v) :: l' else (k', v') :: assign k v l'
  end.

Fixpoint chars (s : string) : list value :=
  match s with
  | EmptyString => []
  | String c s' => VStr (String c EmptyString) :: chars s'
  end.

(** The index properties ["0"], ["1"], ... of an array or a string. *)
Definition indexed (l : list value) : list (string * value) :=
  imap (fun i x => (pretty i, x)) l.

(** The own enumerable properties of a value that is not [null] or
    [undefined]. *)
Definition own_props (v : value) : list (string * value) :=
  match v with
  | VObj props => props
  | VArr elems => indexed elems
  | VStr s => indexed (chars s)
  | _ => []
  end.

(** [v[k]] for a [v] that is not [null] or [undefined]. *)
Definition get_prop (v : value) (k : string) : value :=
  match v with
  | VArr elems =>
      if String.eqb k "length" then VNum (Z.of_nat (length elems))
      else assoc k (indexed elems)
  | VStr s =>
      if String.eqb k "length" then VNum (Z.of_nat (String.length s))
      else assoc k (indexed (chars s))
  | _ => assoc k (own_props v)
  end.

(** [Object.keys(v)] for a [v] that is not [null] or [undefined]. *)
Definition Object_keys (v : value) : list string := (own_props v).*1.

Definition join (sep : string) (l : list string) : string :=
  match l with
  | [] => ""
  | x :: l' => fold_left (fun acc y => acc +:+ sep +:+ y) l' x
  end.

(** ToString *)
Fixpoint to_str (v : value) : string :=
  match v with
  | VUndef => "undefined"
  | VNull => "null"
  | VBool true => "true"
  | VBool false => "false"
  | VNum z => pretty z
  | VNaN => "NaN"
  | VStr s => s
  | VArr elems =>
      join "," (map (fun x => if nullish x then "" else to_str x) elems)
  | VObj _ => "[object Object]"
  end.

(** [s.match(/Int/)] as a truth value: does [s] contain [p]? *)
Fixpoint contains (p s : string) : bool :=
  String.prefix p s
  || match s with
     | EmptyString => false
     | String _ s' => contains p s'
     end.

Definition is_ws (c : ascii) : bool :=
  let n := nat_of_ascii c in
  ((9 <=? n) && (n <=? 13))%nat || (n =? 32)%nat.

Fixpoint skip_ws (s : string) : string :=
  match s with
  | String c s' => if is_ws c then skip_ws s' else s
  | EmptyString => s
  end.

Definition digit (radix : Z) (c : ascii) : option Z :=
  let n := Z.of_nat (nat_of_ascii c) in
  let d := if (48 <=? n) && (n <=? 57) then n - 48
           else if (97 <=? n) && (n <=? 122) then n - 87
           else if (65 <=? n) && (n <=? 90) then n - 55
           else radix in
  if d <? radix then Some d else None.

Fixpoint digits (radix : Z) (s : string) (acc : option Z) : option Z :=
  match s with
  | String c s' =>
      match digit radix c with
      | Some d => digits radix s' (Some (radix * default 0 acc + d))
      | None => acc
      end
  | EmptyString => acc
  end.

(** [parseInt(v)] with no radix: leading white space, a sign, an optional
    [0x], then the longest run of digits. *)
Definition parseInt (v : value) : value :=
  let s := skip_ws (to_str v) in
  let '(neg, s) :=
    match s with
    | String "-" s' => (true, s')
    | String "+" s' => (false, s')
    | _ => (false, s)
    end in
  let '(radix, s) :=
    match s with
    | String "0" (String "x" s') | String "0" (String "X" s') => (16, s')
    | _ => (10, s)
    end in
  match digits radix s None with
  | Some n => VNum (if neg : bool then - n else n)
  | None => VNaN
  end.

(** The replacement text of [String.prototype.replace] for a string
    pattern: [$$], [$&], [$`] and [$'] are special. *)
Fixpoint substitution (matched before after repl : string) : string :=
  match repl with
  | EmptyString => ""
  | String c rest =>
      if Ascii.eqb c "$" then
        match rest with
        | String d rest' =>
            if Ascii.eqb d "$" then
              "$" +:+ substitution matched before after rest'
            else if Ascii.eqb d "&" then
              matched +:+ substitution matched before after rest'
            else if Ascii.eqb d "`" then
              before +:+ substitution matched before after rest'
            else if Ascii.eqb d "'" then
              after +:+ substitution matched before after rest'
            else "$" +:+ substitution matched before after rest
        | EmptyString => "$"
        end
      else String c (substitution matched before after rest)
  end.

Definition drop_prefix (n : nat) (s : string) : string :=
  String.substring n (String.length s - n) s.

Fixpoint split_at_first (pat s : string) : option (string * string) :=
  if String.prefix pat s then Some ("", drop_prefix (String.length pat) s)
  else match s with
       | EmptyString => None
       | String c s' =>
           match split_at_first pat s' with
           | Some (b, a) => Some (String c b, a)
           | None => None
           end
       end.

(** [s.replace(pat, repl)] with a string pattern: the first occurrence
    only. *)
Definition replace (pat repl s : string) : string :=
  match split_at_first pat s with
  | None => s
  | Some (b, a) => b +:+ substitution pat b a repl +:+ a
  end.

(** [array[i] = x] on an array with holes: in range the slot is written,
    past the end the array grows, with holes up to [i]. *)
Definition array_set {A} (l : list (option A)) (i : nat) (x : A)
  : list (option A) :=
  if (i <? length l)%nat then <[i := Some x]> l
  else l ++ replicate (i - length l) None ++ [Some x].

(** [obj[k] = v] in strict code.  On [null] or [undefined] it throws, on
    another primitive it throws too (strict code cannot create a property
    on a primitive), on an object it writes.  The model's arrays hold
    elements only, so an array written through a key is kept from then on
    as the object with the same own properties. *)
Definition set_prop (obj : value) (k : string) (v : value) : result value :=
  match obj with
  | VObj props => Ok (VObj (assign k v props))
  | VArr elems => Ok (VObj (assign k v (indexed elems)))
  | VUndef | VNull =>
      Throw (TypeError ("Cannot set property '" +:+ k +:+ "' of undefined"))
  | _ => Throw (TypeError ("Cannot create property '" +:+ k +:+ "' on a primitive"))
  end.

End JS.
Export JS.

(** [result] is the error monad; stdpp's [x ← m; k] notation binds in it. *)
#[global] Instance result_ret : MRet result := @Ok.
#[global] Instance result_bind : MBind result := fun A B k m => JS.bind m k.

(** A [for ... of] loop whose body may throw. *)
Fixpoint foldM {A B} (f : A -> B -> result A) (l : list B) (a : A) : result A :=
  match l with
  | [] => Ok a
  | x :: l' => a' ← f a x; foldM f l' a'
  end.

(** ** The utility layer ([./utils]: underscore plus [devAssert]) *)

Module Utils.

(** [_.keys(v)]: the own enumerable keys of an object or an array, nothing
    for a primitive. *)
Definition keys (v : value) : list string :=
  match v with
  | VObj _ | VArr _ => Object_keys v
  | _ => []
  end.

(** [_.isEmpty(v)] *)
Definition isEmpty (v : value) : bool :=
  match v with
  | VUndef | VNull => true
  | VArr elems => (length elems =? 0)%nat
  | VStr s => (String.length s =? 0)%nat
  | _ => (length (keys v) =? 0)%nat
  end.

Definition isArray (v : value) : bool :=
  match v with
  | VArr _ => true
  | _ => false
  end.

(** [_.findIndex(array, predicate)]: the first index whose element
    satisfies the predicate, [-1] when there is none.  A hole reads as
    [undefined]. *)
Fixpoint findIndex_from {A} (i : Z) (p : option A -> bool) (l : list (option A))
  : Z :=
  match l with
  | [] => -1
  | x :: l' => if p x then i else findIndex_from (i + 1) p l'
  end.

Definition findIndex {A} (l : list (option A)) (p : option A -> bool) : Z :=
  findIndex_from 0 p l.

(** [_.extend(dest, src)] on dictionaries: every key of [src] is written
    into [dest]. *)
Definition extend {V} (dest src : gmap string V) : gmap string V := src ∪ dest.

(** [_.omit(obj, key)] *)
Definition omit {V} (obj : gmap string V) (key : string) : gmap string V :=
  delete key obj.

(** [devAssert(condition, message)] *)
Definition devAssert (condition : bool) (message : string) : result unit :=
  if condition then Ok tt else Throw (Error message).

End Utils.

(** ** The transport boundary and the client ([./client]) *)

Module Client.

Inductive verb := GET | POST.

(** The payload [{query, variables}]; [variables] may be [null]. *)
Record payload := {
  p_query : string;
  p_variables : option (list (string * value))
}.

(** One call of the transport: [Request({headers}).get(url, body)] or
    [.post(url, body)]. *)
Record request := {
  r_verb : verb;
  r_url : string;
  r_body : payload;
  r_headers : gmap string value
}.

(** What [GQLConfig] has stored on [GQLClient.prototype]. *)
Record GQLClient := {
  url : option string;
  headers : option (gmap string value)
}.

(** Everything outside the registry that a run can touch: the configured
    prototype, the requests handed to the transport, and the calls made to
    caller-supplied callbacks (the callback and its first argument). *)
Record world := {
  proto : GQLClient;
  wire : list request;
  calls : list (fn * value)
}.

(** How the transport's promise settles. *)
Inductive reply :=
| Fulfilled (res : value)
| Failed (err : value).

Definition GQLConfig (options : GQLClient) (w : world) : world :=
  {| proto := {| url := match url options with
                        | Some u => Some u
                        | None => url (proto w)
                        end;
                 headers := match headers options with
                            | Some h => Some h
                            | None => headers (proto w)
                            end |};
     wire := wire w;
     calls := calls w |}.

(** [!client.url] *)
Definition configured_url (c : GQLClient) : option string :=
  match url c with
  | Some u => if String.eqb u "" then None else Some u
  | None => None
  end.

(** [GQLClientQuery({headers, query})].  [client.headers] is the object
    stored on the prototype, so [_.extend(client.headers, headers)] writes
    the call's headers into the configured object (and does nothing when no
    headers were configured); the transport is given the call's own
    [headers]. *)
Definition GQLClientQuery (w : world) (hdrs : option (gmap string value))
    (query : payload) : result world :=
  match configured_url (proto w) with
  | None => Throw (Error "GQL is not configured!")
  | Some u =>
      let hdrs := default ∅ hdrs in
      let client_headers := (fun h => Utils.extend h hdrs) <$> headers (proto w) in
      Ok {| proto := {| url := url (proto w); headers := client_headers |};
            wire := wire w ++ [ {| r_verb := GET; r_url := u; r_body := query;
                                   r_headers := hdrs |} ];
            calls := calls w |}
  end.

(** [GQLClientMutation({headers, query})]: the same, through [post]. *)
Definition GQLClientMutation (w : world) (hdrs : option (gmap string value))
    (query : payload) : result world :=
  match configured_url (proto w) with
  | None => Throw (Error "GQL is not configured!")
  | Some u =>
      let hdrs := default ∅ hdrs in
      let client_headers := (fun h => Utils.extend h hdrs) <$> headers (proto w) in
      Ok {| proto := {| url := url (proto w); headers := client_headers |};
            wire := wire w ++ [ {| r_verb := POST; r_url := u; r_body := query;
                                   r_headers := hdrs |} ];
            calls := calls w |}
  end.

(** A file of an upload: its [name] property and its identity. *)
Record file := { file_name : string; file_id : nat }.

(** What [GQLClientUpload] hands to [Request(...).send()]: [headers], the
    form data (field name, file, file name), [method], [params], [url]. *)
Record upload := {
  u_headers : value;
  u_data : list (string * file * string);
  u_method : verb;
  u_params : payload;
  u_url : string
}.

(** The two identifiers [GQLClientUpload] takes from the global scope:
    the [FormData] constructor, and [_headers], which nothing in the
    module binds ([None]: not declared). *)
Record upload_scope := {
  has_FormData : bool;
  g__headers : option value
}.

(** [GQLClientUpload({headers, query, name, files})].  The result is what
    the call returns or throws, the world it leaves, and the call's
    [headers] object as it leaves it. *)
Definition GQLClientUpload (S : upload_scope) (w : world)
    (hdrs : option (gmap string value)) (query : payload) (name : string)
    (files : list file)
  : result upload * world * gmap string value :=
  match configured_url (proto w) with
  | None => (Throw (Error "GQL is not configured!"), w, default ∅ hdrs)
  | Some u =>
      if negb (has_FormData S)
      then (Throw (ReferenceError "FormData"), w, default ∅ hdrs)
      else
        let formData := (fun f => (name, f, file_name f)) <$> files in
        let hdrs := default ∅ hdrs in
        let client_headers := (fun h => Utils.extend h hdrs) <$> headers (proto w) in
        let w := {| proto := {| url := url (proto w); headers := client_headers |};
                    wire := wire w; calls := calls w |} in
        let hdrs := <["X-GQL-Upload" := VBool true]> hdrs in
        match g__headers S with
        | None => (Throw (ReferenceError "_headers"), w, hdrs)
        | Some _headers =>
            (Ok {| u_headers := _headers; u_data := formData; u_method := POST;
                   u_params := query; u_url := u |}, w, hdrs)
        end
  end.

End Client.

(** ** The query registry ([query.jsx]) *)

Module Query.

(** What [set] stores in [this.queries]: [{name, query, args}]. *)
Record entry := {
  name : string;
  query : string;
  args : value
}.

(** The object handed to [set] (and to [gqlQuery]).  [set] reads
    [nameOrAlias], [args], [query], [onSuccess] and [onError]; the runners
    read [name] and [onError].  [None] is a property that is absent. *)
Record spec := {
  nameOrAlias : option string;
  s_name : option string;
  s_args : option value;
  s_query : option string;
  onSuccess : option fn;
  onError : option fn
}.

Record registry := {
  errors : gmap string value;
  queries : list (option entry);
  directives : list string;
  successCallbacks : gmap string fn;
  errorCallbacks : gmap string fn
}.

Definition reset : registry :=
  {| errors := ∅; queries := []; directives := [];
     successCallbacks := ∅; errorCallbacks := ∅ |}.

(** The methods the class body declares. *)
Definition methods : list string :=
  [ "constructor"; "reset"; "hasQueries"; "get"; "set"; "unset"; "exec";
    "__send"; "__handleErrorResponse"; "__serverError"; "__handleResponse";
    "__execErrors"; "__execSuccess"; "__getQuery" ]%string.

(** [this.m.bind(this)]: a [TypeError] when the class has no method [m]. *)
Definition bind_method (cls : list string) (m : string) : result unit :=
  if existsb (String.eqb m) cls then Ok tt
  else Throw (TypeError ("Cannot read property 'bind' of undefined: " +:+ m)).

(** The constructor, for a class with the methods [cls] ([GQLMutation]
    inherits it and adds no method of another name). *)
Definition new (cls : list string) : result registry :=
  let this := reset in
  _ ← bind_method cls "handleErrorResponse";
  _ ← bind_method cls "handleResponse";
  Ok this.

Definition hasQueries (this : registry) : bool :=
  0 <? Z.of_nat (length (queries this)).

(** The predicate [_.matcher({name: nameOrAlias})]. *)
Definition matcher (nameOrAlias : string) (x : option entry) : bool :=
  match x with
  | Some e => String.eqb (name e) nameOrAlias
  | None => false
  end.

Inductive found :=
| Null
| Undefined
| Entry (e : entry).

(** [this.queries[pos]] *)
Definition at_index (l : list (option entry)) (pos : Z) : found :=
  if pos <? 0 then Undefined
  else match l !! Z.to_nat pos with
       | Some (Some e) => Entry e
       | _ => Undefined
       end.

Definition get (this : registry) (nameOrAlias : string) : found :=
  let pos := Utils.findIndex (queries this) (matcher nameOrAlias) in
  if pos =? 0 (* !pos *) then Null
  else at_index (queries this) pos.

Definition opt_str (o : option string) : value :=
  match o with
  | Some s => VStr s
  | None => VUndef
  end.

Definition set (this : registry) (q : spec) : result registry :=
  _ ← Utils.devAssert (negb (Utils.isEmpty (opt_str (nameOrAlias q))))
        "Missing query name!";
  _ ← Utils.devAssert (negb (Utils.isEmpty (opt_str (s_query q))))
        "Missing query definition!";
  let nameOrAlias := default "" (nameOrAlias q) in
  let query := default "" (s_query q) in
  let args := match s_args q with
              | Some a => a
              | None => VObj []
              end in
  let successCallbacks :=
    match onSuccess q with
    | Some f => <[nameOrAlias := f]> (successCallbacks this)
    | None => successCallbacks this
    end in
  let errorCallbacks :=
    match onError q with
    | Some f => <[nameOrAlias := f]> (errorCallbacks this)
    | None => errorCallbacks this
    end in
  let pos := Utils.findIndex (queries this) (matcher nameOrAlias) in
  let pos := if pos <? 0 then Z.of_nat (length (queries this)) else pos in
  let queries :=
    array_set (queries this) (Z.to_nat pos)
      {| name := nameOrAlias; query := query; args := args |} in
  Ok {| errors := errors this; queries := queries;
        directives := directives this;
        successCallbacks := successCallbacks;
        errorCallbacks := errorCallbacks |}.

(** [delete this.queries[pos]] leaves a hole and keeps the length; at a
    negative [pos] there is no such property and nothing happens. *)
Definition unset (this : registry) (nameOrAlias : string) : registry :=
  let pos := Utils.findIndex (queries this) (matcher nameOrAlias) in
  if pos =? 0 (* !pos *) then this
  else if pos <? 0 then this
  else {| errors := errors this;
          queries := <[Z.to_nat pos := None]> (queries this);
          directives := directives this;
          successCallbacks := successCallbacks this;
          errorCallbacks := errorCallbacks this |}.

(** *** Composing the request *)

(** [__getQuery] reads two identifiers, [args] and [name], that neither the
    method nor the module binds: they resolve in the global scope.  [None]
    is an identifier that is not declared there. *)
Record globals := {
  g_args : option value;
  g_name : option value
}.

Definition global (ident : string) (binding : option value) : result value :=
  match binding with
  | Some v => Ok v
  | None => Throw (ReferenceError ident)
  end.

(** What the local array [queries] of [exec] can hold: an entry object
    pushed as it is, or a query text. *)
Inductive qitem :=
| QEntry (e : entry)
| QText (s : string).

(** The three containers [exec] passes to [__getQuery]. *)
Record batch := {
  b_queries : list qitem;
  b_queryArgs : list (string * value);
  b_vars : list (string * value)
}.

Definition push (q : qitem) (b : batch) : batch :=
  {| b_queries := b_queries b ++ [q];
     b_queryArgs := b_queryArgs b;
     b_vars := b_vars b |}.

(** [const {type, value} = v] *)
Definition destructure (v : value) : result (value * value) :=
  if nullish v
  then Throw (TypeError "Cannot destructure property 'type' of undefined")
  else Ok (get_prop v "type", get_prop v "value").

(** [type.match(/Int/)] as a truth value. *)
Definition match_Int (type : value) : result bool :=
  match type with
  | VStr t => Ok (contains "Int" t)
  | _ => Throw (TypeError "type.match is not a function")
  end.

(** [query.replace(pat, repl)]: an entry object has no [replace]. *)
Definition query_replace (pat repl : string) (query : qitem) : result qitem :=
  match query with
  | QText s => Ok (QText (replace pat repl s))
  | QEntry _ => Throw (TypeError "query.replace is not a function")
  end.

(** One turn of the loop over [Object.keys(args)].  [value] is data here,
    so [_.isFunction(value)] is false and the call is skipped. *)
Definition __getQuery_arg (G : globals) (variables : gmap string value)
    (args : value) (st : qitem * batch) (key : string)
  : result (qitem * batch) :=
  let '(query, b) := st in
  '(type, value) ← destructure (get_prop args key);
  name ← global "name" (g_name G);
  let argKey := to_str name +:+ "_" +:+ key in
  let _value := or_else (default VUndef (variables !! key)) value in
  is_int ← match_Int type;
  let _value := if is_int : bool then parseInt _value else _value in
  let b := {| b_queries := b_queries b;
              b_queryArgs := assign argKey type (b_queryArgs b);
              b_vars := assign argKey _value (b_vars b) |} in
  query ← query_replace ("$" +:+ key) ("$" +:+ argKey) query;
  Ok (query, b).

Definition __getQuery (G : globals) (query : entry) (b : batch)
    (variables : gmap string value) : result batch :=
  args ← global "args" (g_args G);
  if negb (truthy args) || Utils.isEmpty args then Ok (push (QEntry query) b)
  else
    '(query, b) ← foldM (__getQuery_arg G variables args) (Object_keys args)
                    (QEntry query, b);
    Ok (push query b).

(** [Array.prototype.join] turns each element into a string. *)
Definition qitem_str (q : qitem) : string :=
  match q with
  | QEntry _ => "[object Object]"
  | QText s => s
  end.

(** The document and the variables [exec] hands to [__send]. *)
Definition compose (this : registry) (b : batch)
  : string * option (list (string * value)) :=
  let queries := join " " (qitem_str <$> b_queries b) in
  let '(queries, vars) :=
    if negb (Utils.isEmpty (VObj (b_queryArgs b))) then
      let def := (fun kv => "$" +:+ kv.1 +:+ ": " +:+ to_str kv.2)
                   <$> b_queryArgs b in
      ("WRAPPER(" +:+ join " " def +:+ ") { " +:+ queries +:+ " }",
       Some (b_vars b))
    else ("{" +:+ queries +:+ "}", None) in
  let queries :=
    if negb (length (directives this) =? 0)%nat
    then join " " (directives this) +:+ queries
    else queries in
  (queries, vars).

(** *** Settling *)

(** What the promise of [exec] can resolve with: the sentinel [true], or
    the array [[errors]] or [[errors, data]]. *)
Inductive settled :=
| Sentinel
| Tuple (errs : gmap string value) (data : option value).

Inductive outcome (A : Type) :=
| Throws (e : error)
| Resolves (a : A)
| Rejects (e : error).
Arguments Throws {A} e.
Arguments Resolves {A} a.
Arguments Rejects {A} e.

(** A method that reads [this]: a [TypeError] when [this] is [undefined]. *)
Definition self (this : option registry) (prop : string) : result registry :=
  match this with
  | Some r => Ok r
  | None => Throw (TypeError ("Cannot read property '" +:+ prop
                              +:+ "' of undefined"))
  end.

Definition with_errors (errs : gmap string value) (this : registry) : registry :=
  {| errors := errs; queries := queries this; directives := directives this;
     successCallbacks := successCallbacks this;
     errorCallbacks := errorCallbacks this |}.

(** [errors.pop()] *)
Definition pop (errs : value) : result value :=
  match errs with
  | VArr elems => Ok (default VUndef (last elems))
  | _ => Throw (TypeError "errors.pop is not a function")
  end.

Definition __serverError (this : option registry) (errs : value)
  : result (settled * registry) :=
  r ← self this "__serverError";
  err ← pop errs;
  if nullish err
  then Throw (TypeError "Cannot read property 'message' of undefined")
  else
    let r := with_errors
               (<["serverError" :=
                    VObj [("message", get_prop err "message");
                          ("code", VStr "serverError")]]> (errors r)) r in
    Ok (Tuple (errors r) None, r).

(** [return this.serverError([err])]: the class has [__serverError] and no
    [serverError], so the call fails even with [this] bound. *)
Definition __handleErrorResponse (this : option registry) (err : value)
  : result (settled * registry) :=
  _ ← self this "serverError";
  Throw (TypeError "this.serverError is not a function").

(** The loop shared in shape by [__execErrors] and [__execSuccess]: each
    key with a registered callback has it called with the key's value. *)
Definition dispatch (table : gmap string fn) (payload : value)
  : list (fn * value) :=
  omap (fun key => (fun cb => (cb, get_prop payload key)) <$> table !! key)
       (Utils.keys payload).

Definition __execErrors (this : registry) (errs : value) : list (fn * value) :=
  dispatch (errorCallbacks this) errs.

Definition __execSuccess (this : registry) (data : value) : list (fn * value) :=
  dispatch (successCallbacks this) data.

(** [x = {}] in a destructuring pattern: the default replaces [undefined]
    only. *)
Definition or_default (v dflt : value) : value :=
  match v with
  | VUndef => dflt
  | _ => v
  end.

Definition __handleResponse (this : option registry) (res : value)
  : result (settled * registry * list (fn * value)) :=
  if negb (truthy res) then
    '(v, r) ← __serverError this
                (VArr [VObj [("message",
                              VStr "Something went wrong. Unable to process request!");
                             ("code", VStr "serverError")]]);
    Ok (v, r, [])
  else if Utils.isArray res then
    '(v, r) ← __serverError this res;
    Ok (v, r, [])
  else
    let body := get_prop res "data" in
    if nullish body
    then Throw (TypeError "Cannot destructure property 'data' of undefined")
    else
      let data := or_default (get_prop body "data") (VObj []) in
      let error := or_default (get_prop body "error") (VObj []) in
      let errs := get_prop body "errors" in
      if truthy errs then
        '(v, r) ← __serverError this errs;
        Ok (v, r, [])
      else
        r ← self this "__execErrors";
        Ok (Tuple (errors r) (Some data), r,
            __execErrors r error ++ __execSuccess r data).

(** [__send] hands [this.__handleErrorResponse] and [this.__handleResponse]
    to the promise as plain function values.  Nothing has bound them (the
    constructor binds [handleErrorResponse] and [handleResponse], two other
    names), and a class body is strict code: they run with [this]
    undefined. *)
Definition callback_this : option registry := None.

(** The array a handler returns, as the next handler receives it. *)
Definition settled_value (v : settled) : value :=
  match v with
  | Sentinel => VBool true
  | Tuple errs data =>
      VArr (VObj (map_to_list errs) :: match data with
                                       | Some d => [d]
                                       | None => []
                                       end)
  end.

Definition add_calls (cs : list (fn * value)) (w : Client.world) : Client.world :=
  {| Client.proto := Client.proto w; Client.wire := Client.wire w;
     Client.calls := Client.calls w ++ cs |}.

(** [.then(this.__handleResponse)] *)
Definition then_handleResponse (this : registry) (w : Client.world) (res : value)
  : outcome settled * registry * Client.world :=
  match __handleResponse callback_this res with
  | Ok (v, r, cs) => (Resolves v, r, add_calls cs w)
  | Throw e => (Rejects e, this, w)
  end.

(** [promise.catch(this.__handleErrorResponse).then(this.__handleResponse)],
    for a transport promise that settles as [rep]. *)
Definition settle (this : registry) (w : Client.world) (rep : Client.reply)
  : outcome settled * registry * Client.world :=
  match rep with
  | Client.Fulfilled res => then_handleResponse this w res
  | Client.Failed err =>
      match __handleErrorResponse callback_this err with
      | Ok (v, r) => then_handleResponse r w (settled_value v)
      | Throw e => (Rejects e, this, w)
      end
  end.

Definition sender : Type :=
  registry -> Client.world -> Client.reply -> option (gmap string value) ->
  string -> option (list (string * value)) ->
  outcome settled * registry * Client.world.

Definition __send : sender := fun this w rep headers query variables =>
  let this := with_errors ∅ this in
  match Client.GQLClientQuery w headers
          {| Client.p_query := "query " +:+ query;
             Client.p_variables := variables |} with
  | Throw e => (Throws e, this, w)
  | Ok w => settle this w rep
  end.

(** [this.queries.map(f)] visits the entries and skips the holes. *)
Definition present (l : list (option entry)) : list entry := omap id l.

(** [exec(variables, headers)].  [send] is the [__send] of the object's
    class; [rep] is how the transport settles if it is called. *)
Definition exec (send : sender) (G : globals) (w : Client.world)
    (rep : Client.reply) (this : registry) (variables : gmap string value)
    (headers : option (gmap string value))
  : outcome settled * registry * Client.world :=
  match foldM (fun b query => __getQuery G query b variables)
              (present (queries this))
              {| b_queries := []; b_queryArgs := []; b_vars := [] |} with
  | Throw e => (Throws e, this, w)
  | Ok b =>
      if (length (b_queries b) =? 0)%nat then (Resolves Sentinel, this, w)
      else
        let '(queries, vars) := compose this b in
        send this w rep headers queries vars
  end.

(** *** The single-shot runner *)

(** What the promise of a runner resolves with: the array it was given,
    whatever [onError] returned, or [undefined]. *)
Inductive answer :=
| Passed (errs : gmap string value) (data : option value)
| FromCallback (f : fn)
| NoValue.

(** [query.onError.call(null, err)] *)
Definition call_onError (query : spec) (err : value)
  : result (answer * list (fn * value)) :=
  match onError query with
  | Some f => Ok (FromCallback f, [(f, err)])
  | None => Throw (TypeError "Cannot read property 'call' of undefined")
  end.

(** The [handleResponse] closure of [gqlQuery].  It looks the entry's own
    error up under [query.name]. *)
Definition handleResponse (query : spec) (v : settled)
  : result (answer * list (fn * value)) :=
  match v with
  | Sentinel => Throw (TypeError "true is not iterable")
  | Tuple errs data =>
      let serverError := default VUndef (errs !! "serverError") in
      let own := default VUndef (errs !! to_str (opt_str (s_name query))) in
      if truthy serverError then call_onError query serverError
      else if truthy own then call_onError query own
      else Ok (Passed errs data, [])
  end.

(** [promise.then(handleResponse)] after [exec]. *)
Definition then_ {A} (h : settled -> result (A * list (fn * value)))
    (run : outcome settled * registry * Client.world)
  : outcome A * Client.world :=
  match run with
  | (Throws e, _, w) => (Throws e, w)
  | (Rejects e, _, w) => (Rejects e, w)
  | (Resolves v, _, w) =>
      match h v with
      | Ok (a, cs) => (Resolves a, add_calls cs w)
      | Throw e => (Rejects e, w)
      end
  end.

Definition gqlQuery (G : globals) (w : Client.world) (rep : Client.reply)
    (query : spec) (vars : gmap string value)
    (headers : option (gmap string value)) : outcome answer * Client.world :=
  match gql ← new methods; set gql query with
  | Throw e => (Throws e, w)
  | Ok gql => then_ (handleResponse query) (exec __send G w rep gql vars headers)
  end.

End Query.

(** ** The mutation registry ([mutation.jsx]) *)

Module Mutation.

(** [GQLMutation] extends the query class and declares [__send] only. *)
Definition methods : list string := Query.methods.

Definition __send : Query.sender := fun this w rep headers query variables =>
  match Client.GQLClientMutation w headers
          {| Client.p_query := "mutation " +:+ query;
             Client.p_variables := variables |} with
  | Throw e => (Query.Throws e, this, w)
  | Ok w => Query.settle this w rep
  end.

(** The [handleResponse] closure of [gqlMutator]: it takes [[errors]] and
    returns nothing when no error matches. *)
Definition handleResponse (query : Query.spec) (v : Query.settled)
  : result (Query.answer * list (fn * value)) :=
  match v with
  | Query.Sentinel => Throw (TypeError "true is not iterable")
  | Query.Tuple errs _ =>
      let serverError := default VUndef (errs !! "serverError") in
      let own := default VUndef (errs !! to_str (Query.opt_str (Query.s_name query))) in
      if truthy serverError then Query.call_onError query serverError
      else if truthy own then Query.call_onError query own
      else Ok (Query.NoValue, [])
  end.


End Mutation.

(** ** The reactive state store ([./query-state]) *)

Module QueryState.

Record store := {
  name : string;
  args : value;
  queryString : string;
  state : gmap string value;
  oldState : gmap string value;
  subscribers : list fn
}.

(** One call [cb.call(null, state, oldState, this)]. *)
Record notice := {
  n_callback : fn;
  n_state : gmap string value;
  n_oldState : gmap string value
}.

(** An argument that should be a callback: some data, or a function. *)
Inductive arg :=
| Data (v : value)
| Function (f : fn).

(** The first argument of [set]: a key, or an object of several. *)
Inductive target :=
| Key (k : string)
| Patch (p : gmap string value).

Definition prepareState (st : gmap string value) : gmap string value := st.

Definition new (name : string) (args : value) (query : string)
    (defaults : gmap string value) (subscribers : list fn) : store :=
  {| name := name; args := args; queryString := query;
     state := defaults; oldState := ∅; subscribers := subscribers |}.

Definition with_state (st old : gmap string value) (this : store) : store :=
  {| name := name this; args := args this; queryString := queryString this;
     state := st; oldState := old; subscribers := subscribers this |}.

Definition with_subscribers (subs : list fn) (this : store) : store :=
  {| name := name this; args := args this; queryString := queryString this;
     state := state this; oldState := oldState this; subscribers := subs |}.

(** [this.state[name]] *)
Definition field (this : store) (name : string) : value :=
  default VUndef (state this !! name).

Definition __callSubscribers (this : store) (oldState : gmap string value)
  : list notice :=
  if (length (subscribers this) =? 0)%nat then []
  else
    let state := Utils.extend ∅ (state this) in
    (fun cb => {| n_callback := cb; n_state := state; n_oldState := oldState |})
      <$> subscribers this.

Definition set (this : store) (name : target) (value : value) : store :=
  let old := Utils.extend ∅ (state this) in
  match name with
  | Patch p => with_state (Utils.extend (state this) p) old this
  | Key k => with_state (<[k := value]> (state this)) old this
  end.

Definition setSync (this : store) (name : target) (value : value)
  : store * list notice :=
  let this := set this name value in
  (this, __callSubscribers this (oldState this)).

(** [unset] returns nothing on either path: its result is [undefined]. *)
Definition unset (this : store) (name : string) : store * value :=
  if negb (truthy (field this name)) then (this, VUndef)
  else
    let old := Utils.extend ∅ (state this) in
    (with_state (Utils.omit (state this) name) old this, VUndef).

Definition unsetSync (this : store) (name : string) : store * list notice :=
  let '(this, returned) := unset this name in
  if negb (truthy returned) then (this, [])
  else (this, __callSubscribers this (oldState this)).

Definition reset (this : store) (st : gmap string value) : store :=
  with_state (prepareState st) (Utils.extend ∅ (state this)) this.

Definition resetSync (this : store) (st : gmap string value)
  : store * list notice :=
  let this := reset this st in
  (this, __callSubscribers this (oldState this)).

(** Both [subscribe] and [unsubscribe] start with
    [!callback || 'function' !== typeof callback || !callback.name]: data
    is no function, and an anonymous function has the empty name. *)
Definition subscribe (this : store) (callback : arg) : store * value :=
  match callback with
  | Data _ => (this, VBool false)
  | Function f =>
      if String.eqb (fn_name f) "" then (this, VBool false)
      else
        let exist := filter (fun cb => fn_name cb = fn_name f) (subscribers this) in
        if negb (length exist =? 0)%nat then (this, VUndef)
        else (with_subscribers (subscribers this ++ [f]) this, VBool true)
  end.

Definition unsubscribe (this : store) (callback : arg) : store * value :=
  match callback with
  | Data _ => (this, VBool false)
  | Function f =>
      if String.eqb (fn_name f) "" then (this, VBool false)
      else
        (with_subscribers
           (filter (fun cb => fn_name cb ≠ fn_name f) (subscribers this)) this,
         VBool true)
  end.

Definition with_args (a : value) (this : store) : store :=
  {| name := name this; args := a; queryString := queryString this;
     state := state this; oldState := oldState this;
     subscribers := subscribers this |}.

(** What [get] returns: a copy of the snapshot, or one field. *)
Inductive got :=
| Whole (st : gmap string value)
| Field (v : value).

(** [get(name = null)]: [!name] holds for no name and for the empty one. *)
Definition get (this : store) (name : option string) : got :=
  match name with
  | None => Whole (state this)
  | Some n => if String.eqb n "" then Whole (state this) else Field (field this n)
  end.

(** [getArg(name)]; [this.args[name]] throws when [this.args] is [null]. *)
Definition getArg (this : store) (name : string) : result value :=
  if nullish (args this)
  then Throw (TypeError ("Cannot read property '" +:+ name +:+ "' of null"))
  else
    let spec := get_prop (args this) name in
    if negb (truthy spec) then Ok VNull
    else Ok (or_else (field this name) (or_else (get_prop spec "value") VNull)).




(** The object [toQuery] returns, its two handlers left out: they are the
    store's own [__onSuccess] and [__onError]. *)
Record descriptor := {
  d_name : string;
  d_args : value;
  d_query : string
}.

(** One turn of the loop of [toQuery]: [args[key]] is the store's own
    object, so writing its [value] writes into the store. *)
Definition toQuery_key (this : store) (key : string) : result (store * value) :=
  let spec := get_prop (args this) key in
  v ← getArg this key;
  spec ← set_prop spec "value" v;
  a ← set_prop (args this) key spec;
  Ok (with_args a this, spec).

Fixpoint toQuery_loop (this : store) (out : list (string * value))
    (keys : list string) : store * result (list (string * value)) :=
  match keys with
  | [] => (this, Ok out)
  | key :: keys' =>
      match toQuery_key this key with
      | Ok (this', spec) => toQuery_loop this' (assign key spec out) keys'
      | Throw e => (this, Throw e)
      end
  end.

Definition toQuery (this : store) : store * result descriptor :=
  let '(this', out) := toQuery_loop this [] (Utils.keys (args this)) in
  (this',
   out ← out;
   Ok {| d_name := name this; d_args := VObj out; d_query := queryString this |}).

(** The store together with what [query] leaves on it: the caller's two
    callbacks ([None]: [false]), and the bound handlers the constructor
    made. *)
Record fetcher := {
  store_of : store;
  successCallback : option fn;
  errorCallback : option fn;
  bound_onSuccess : fn;
  bound_onError : fn
}.

Definition with_store (st : store) (this : fetcher) : fetcher :=
  {| store_of := st; successCallback := successCallback this;
     errorCallback := errorCallback this;
     bound_onSuccess := bound_onSuccess this;
     bound_onError := bound_onError this |}.

Definition with_callbacks (onSuccess onError : option fn) (this : fetcher)
  : fetcher :=
  {| store_of := store_of this; successCallback := onSuccess;
     errorCallback := onError;
     bound_onSuccess := bound_onSuccess this;
     bound_onError := bound_onError this |}.

(** The descriptor as [set] and [gqlQuery] read it: it has a [name] and no
    [nameOrAlias]. *)
Definition as_spec (this : fetcher) (d : descriptor) : Query.spec :=
  {| Query.nameOrAlias := None; Query.s_name := Some (d_name d);
     Query.s_args := Some (d_args d); Query.s_query := Some (d_query d);
     Query.onSuccess := Some (bound_onSuccess this);
     Query.onError := Some (bound_onError this) |}.

(** [query(onSuccess = false, onError = false)] *)
Definition query (G : Query.globals) (w : Client.world) (rep : Client.reply)
    (this : fetcher) (onSuccess onError : option fn)
  : Query.outcome Query.answer * fetcher * Client.world :=
  let this := with_callbacks onSuccess onError this in
  match toQuery (store_of this) with
  | (st, Throw e) => (Query.Throws e, with_store st this, w)
  | (st, Ok d) =>
      let '(o, w) := Query.gqlQuery G w rep (as_spec this d) ∅ None in
      (o, with_store st this, w)
  end.

(** What the two handlers do, in order: a subscriber is notified, or one
    of the caller's callbacks is called. *)
Inductive event :=
| Notified (n : notice)
| Succeeded (f : fn) (st : gmap string value)
| Errored (f : fn) (err : value).

Definition __onSuccess (this : fetcher) (res : gmap string value)
  : fetcher * list event :=
  let '(st, notices) := resetSync (store_of this) res in
  let called :=
    match successCallback this with
    | Some f => [Succeeded f (state st)]
    | None => []
    end in
  (with_callbacks None None (with_store st this), (Notified <$> notices) ++ called).

Definition __onError (this : fetcher) (err : value) : fetcher * list event :=
  let called :=
    match errorCallback this with
    | Some f => [Errored f err]
    | None => []
    end in
  (with_callbacks None None this, called).

End QueryState.

(** ** Concrete inputs *)

Module Examples.

Definition first : Query.entry :=
  {| Query.name := "first"; Query.query := "first{id}"; Query.args := VObj [] |}.

Definition second : Query.entry :=
  {| Query.name := "second"; Query.query := "second{id}"; Query.args := VObj [] |}.

(** The registry after [set] of ["first"], then of ["second"]. *)
Definition two_entries : Query.registry :=
  {| Query.errors := ∅; Query.queries := [Some first; Some second];
     Query.directives := []; Query.successCallbacks := ∅;
     Query.errorCallbacks := ∅ |}.

(** A second registration under the name ["first"]. *)
Definition first_again : Query.spec :=
  {| Query.nameOrAlias := Some "first"; Query.s_name := None;
     Query.s_args := None; Query.s_query := Some "first{id name}";
     Query.onSuccess := None; Query.onError := None |}.

Definition Int_id : value :=
  VObj [("id", VObj [("type", VStr "Int"); ("value", VNum 1)])].

Definition report : fn := {| fn_name := "report"; fn_id := 7 |}.


(** The registry that holds that single entry. *)
Definition getUser_registry : Query.registry :=
  {| Query.errors := ∅;
     Query.queries := [Some {| Query.name := "getUser";
                               Query.query := "getUser(id:$id){name}";
                               Query.args := Int_id |}];
     Query.directives := []; Query.successCallbacks := ∅;
     Query.errorCallbacks := {["getUser" := report]} |}.

(** A global scope that declares neither [args] nor [name]. *)
Definition no_globals : Query.globals :=
  {| Query.g_args := None; Query.g_name := None |}.

(** A global scope in which [args] is declared and holds [undefined]. *)
Definition args_declared : Query.globals :=
  {| Query.g_args := Some VUndef; Query.g_name := None |}.

(** Before [GQLConfig]: nothing configured, nothing sent, nothing called. *)
Definition unconfigured : Client.world :=
  {| Client.proto := {| Client.url := None; Client.headers := None |};
     Client.wire := []; Client.calls := [] |}.

(** After [GQLConfig({url: "http://gql", headers: {A: "1"}})]. *)
Definition configured : Client.world :=
  Client.GQLConfig {| Client.url := Some "http://gql";
                      Client.headers := Some {["A" := VStr "1"]} |}
    unconfigured.

Definition a_query : Client.payload :=
  {| Client.p_query := "query {me{id}}"; Client.p_variables := None |}.

(** A transport response whose body is
    [{errors: [{message: "boom"}, {message: "final"}]}]. *)
Definition two_errors : value :=
  VObj [("data",
         VObj [("errors", VArr [VObj [("message", VStr "boom")];
                                VObj [("message", VStr "final")]])])].

Definition onChange1 : fn := {| fn_name := "onChange"; fn_id := 1 |}.
Definition onChange2 : fn := {| fn_name := "onChange"; fn_id := 2 |}.
Definition onChange3 : fn := {| fn_name := "onChange"; fn_id := 3 |}.
Definition onChange4 : fn := {| fn_name := "onChange"; fn_id := 4 |}.
Definition other : fn := {| fn_name := "other"; fn_id := 5 |}.

(** [new GQLQueryState({name: "user", query: "user{a}", defaults,
    subscribers})] *)
Definition store_with (defaults : gmap string value) (subscribers : list fn)
  : QueryState.store :=
  QueryState.new "user" (VObj []) "user{a}" defaults subscribers.

End Examples.
Import Examples.

(** ** Invariants and the step relation used in the statements *)

Module Props.

(** The names of the entries of a registry, in order, holes left out. *)
Definition names (l : list (option Query.entry)) : list string :=
  Query.name <$> Query.present l.

(** At most one entry per name. *)
Definition unique (this : Query.registry) : Prop :=
  NoDup (names (Query.queries this)).

(** [this'] is reached from [this] by a sequence of [set] calls that
    return. *)
Inductive set_calls : Query.registry -> Query.registry -> Prop :=
| set_calls_done this : set_calls this this
| set_calls_step this q this' this'' :
    Query.set this q = Ok this' ->
    set_calls this' this'' ->
    set_calls this this''.

(** The number of subscribers of a store under one name. *)
Definition subscribed (n : string) (this : QueryState.store) : nat :=
  length (filter (fun cb => fn_name cb = n) (QueryState.subscribers this)).

(** The callback is a function with a name. *)
Definition named_function (callback : QueryState.arg) : Prop :=
  match callback with
  | QueryState.Data _ => False
  | QueryState.Function f => fn_name f ≠ ""
  end.

End Props.
Import Props.

(** ** Further notions used in the statements *)

Module Laws.

(** A property that is absent or holds the empty string. *)
Definition missing (o : option string) : Prop := o = None ∨ o = Some "".

(** One call of [subscribe] or of [unsubscribe], whatever its argument. *)
Inductive sub_step : QueryState.store -> QueryState.store -> Prop :=
| step_subscribe this callback :
    sub_step this (QueryState.subscribe this callback).1
| step_unsubscribe this callback :
    sub_step this (QueryState.unsubscribe this callback).1.

(** The names of the subscribers, in order. *)
Definition sub_names (this : QueryState.store) : list string :=
  fn_name <$> QueryState.subscribers this.

(** The notices [__callSubscribers] produces for a new and a previous
    snapshot: one per subscriber, in subscription order. *)
Definition notices (subs : list fn) (st old : gmap string value)
  : list QueryState.notice :=
  (fun cb => {| QueryState.n_callback := cb; QueryState.n_state := st;
                QueryState.n_oldState := old |}) <$> subs.

(** The request a client call adds to the wire. *)
Definition sent (v : Client.verb) (u : string) (q : Client.payload)
    (hdrs : option (gmap string value)) : Client.request :=
  {| Client.r_verb := v; Client.r_url := u; Client.r_body := q;
     Client.r_headers := default ∅ hdrs |}.

(** The document [exec] composes when it composes one: every entry comes
    out as the text of an object. *)
Definition document (this : Query.registry) : string :=
  (if negb (length (Query.directives this) =? 0)%nat
   then join " " (Query.directives this) else "")
  +:+ "{"
  +:+ join " " ((fun _ => "[object Object]") <$> Query.present (Query.queries this))
  +:+ "}".



Definition onSaved : fn := {| fn_name := "onSaved"; fn_id := 11 |}.
Definition onFailed : fn := {| fn_name := "onFailed"; fn_id := 12 |}.
Definition bound1 : fn := {| fn_name := "bound __onSuccess"; fn_id := 13 |}.
Definition bound2 : fn := {| fn_name := "bound __onError"; fn_id := 14 |}.

(** A registration of ["second"] with a success callback, and one without. *)
Definition second_with_callback : Query.spec :=
  {| Query.nameOrAlias := Some "second"; Query.s_name := None;
     Query.s_args := None; Query.s_query := Some "second{id}";
     Query.onSuccess := Some onSaved; Query.onError := None |}.

Definition second_again : Query.spec :=
  {| Query.nameOrAlias := Some "second"; Query.s_name := None;
     Query.s_args := None; Query.s_query := Some "second{id name}";
     Query.onSuccess := None; Query.onError := None |}.

(** A store for the query [user(id: $id)], its argument declared with the
    default 1. *)
Definition user_store (st : gmap string value) : QueryState.store :=
  QueryState.new "user" Int_id "user(id:$id){name}" st [other].

Definition user_fetcher (st : gmap string value) : QueryState.fetcher :=
  {| QueryState.store_of := user_store st;
     QueryState.successCallback := Some onSaved;
     QueryState.errorCallback := Some onFailed;
     QueryState.bound_onSuccess := bound1;
     QueryState.bound_onError := bound2 |}.

End Laws.
Import Laws.

(** ** Lemmas on the utility layer *)

Lemma of_nat_not_negative (j : nat) : (Z.of_nat j <? 0) = false.
Proof. apply Z.ltb_ge. lia. Qed.

Lemma findIndex_from_cases {A} (p : option A -> bool) (l : list (option A)) (k : Z) :
  (Utils.findIndex_from k p l = -1 ∧ Forall (fun x => p x = false) l)
  ∨ (∃ (j : nat) (x : option A),
        Utils.findIndex_from k p l = k + Z.of_nat j
        ∧ l !! j = Some x ∧ p x = true
        ∧ Forall (fun y => p y = false) (take j l)).
Proof.
  revert k. induction l as [|a l IH]; intros k; simpl.
  - left. split; [reflexivity | constructor].
  - destruct (p a) eqn:Hpa.
    + right. exists 0%nat, a. simpl. repeat split; [lia | assumption | constructor].
    + destruct (IH (k + 1)) as [[Hneg Hall] | (j & x & Hj & Hl & Hp & Hall)].
      * left. split; [assumption | by constructor].
      * right. exists (S j), x. simpl.
        repeat split; [lia | assumption | assumption | by constructor].
Qed.

Lemma findIndex_cases {A} (p : option A -> bool) (l : list (option A)) :
  (Utils.findIndex l p = -1 ∧ Forall (fun x => p x = false) l)
  ∨ (∃ (j : nat) (x : option A),
        Utils.findIndex l p = Z.of_nat j
        ∧ l !! j = Some x ∧ p x = true
        ∧ Forall (fun y => p y = false) (take j l)).
Proof.
  unfold Utils.findIndex.
  destruct (findIndex_from_cases p l 0) as [H | (j & x & Hj & H)]; [by left|].
  right. exists j, x. split; [lia | assumption].
Qed.

Lemma matcher_true n x :
  Query.matcher n x = true ↔ ∃ e, x = Some e ∧ Query.name e = n.
Proof.
  destruct x as [e|]; simpl.
  - rewrite String.eqb_eq. split; [eauto | by intros (? & [= <-] & ?)].
  - split; [discriminate | by intros (? & ? & ?)].
Qed.

Lemma names_app l1 l2 : names (l1 ++ l2) = names l1 ++ names l2.
Proof. unfold names, Query.present. by rewrite omap_app, fmap_app. Qed.

Lemma names_no_match n l :
  Forall (fun x => Query.matcher n x = false) l → n ∉ names l.
Proof.
  induction 1 as [|x l Hx _ IH]; [apply not_elem_of_nil|].
  destruct x as [e|]; unfold names in *; simpl in *; [|assumption].
  apply not_elem_of_cons. split; [|assumption].
  apply String.eqb_neq in Hx. congruence.
Qed.

Lemma names_insert_same l (i : nat) (e0 e : Query.entry) :
  l !! i = Some (Some e0) → Query.name e = Query.name e0 →
  names (<[i := Some e]> l) = names l.
Proof.
  intros Hl Hname.
  rewrite <- (take_drop_middle l i (Some e0)) at 2 by assumption.
  rewrite insert_take_drop by (eapply lookup_lt_Some; eassumption).
  rewrite !names_app. unfold names at 2 4. simpl. by rewrite Hname.
Qed.

Lemma lookup_names l (i : nat) (e : Query.entry) :
  l !! i = Some (Some e) → Query.name e ∈ names l.
Proof.
  intros Hl. unfold names, Query.present.
  apply list_elem_of_fmap. exists e. split; [done|].
  apply list_elem_of_omap. exists (Some e). split; [|done].
  eapply list_elem_of_lookup_2; eassumption.
Qed.

(** Under uniqueness, any position that holds the name is the one
    [findIndex] reports. *)
Lemma unique_position l (i j : nat) (e0 e1 : Query.entry) :
  NoDup (names l) →
  l !! i = Some (Some e0) → l !! j = Some (Some e1) →
  Query.name e0 = Query.name e1 → i = j.
Proof.
  revert i j. induction l as [|x l IH]; intros i j Hnd Hi Hj Hn; [done|].
  destruct i as [|i], j as [|j]; simpl in *.
  - done.
  - injection Hi as ->. unfold names in Hnd. simpl in Hnd.
    apply NoDup_cons in Hnd as [Hnotin _]. exfalso. apply Hnotin.
    rewrite Hn. eapply lookup_names; eassumption.
  - injection Hj as ->. unfold names in Hnd. simpl in Hnd.
    apply NoDup_cons in Hnd as [Hnotin _]. exfalso. apply Hnotin.
    rewrite <- Hn. eapply lookup_names; eassumption.
  - f_equal. apply IH; try assumption.
    destruct x as [e|]; unfold names in *; simpl in *; [|assumption].
    by apply NoDup_cons in Hnd as [_ ?].
Qed.

(** ** The registry: [get], [set], [unset] *)

Lemma isEmpty_name n : n ≠ "" → Utils.isEmpty (VStr n) = false.
Proof. destruct n; [done | reflexivity]. Qed.

Lemma array_set_end {A} (l : list (option A)) (x : A) :
  array_set l (length l) x = l ++ [Some x].
Proof.
  unfold array_set. rewrite Nat.ltb_irrefl, Nat.sub_diag. reflexivity.
Qed.

Lemma array_set_in_range {A} (l : list (option A)) (i : nat) (x : A) :
  (i < length l)%nat → array_set l i x = <[i := Some x]> l.
Proof.
  intros Hi. unfold array_set. by rewrite (proj2 (Nat.ltb_lt _ _) Hi).
Qed.

(** With a name and a query text that are not empty, [set] returns, and
    its result is decided by [findIndex]. *)
Lemma set_returns this q n text :
  Query.nameOrAlias q = Some n → n ≠ "" →
  Query.s_query q = Some text → text ≠ "" →
  ∃ this',
    Query.set this q = Ok this'
    ∧ Query.queries this' =
        let e := {| Query.name := n; Query.query := text;
                    Query.args := default (VObj []) (Query.s_args q) |} in
        let pos := Utils.findIndex (Query.queries this) (Query.matcher n) in
        if pos <? 0 then Query.queries this ++ [Some e]
        else <[Z.to_nat pos := Some e]> (Query.queries this).
Proof.
  intros Hn Hne Hq Hqe. unfold Query.set. rewrite Hn, Hq. unfold Query.opt_str.
  rewrite (isEmpty_name n Hne), (isEmpty_name text Hqe). cbn.
  eexists. split; [reflexivity|]. cbn.
  replace (match Query.s_args q with Some a => a | None => VObj [] end)
    with (default (VObj []) (Query.s_args q)) by (by destruct (Query.s_args q)).
  destruct (findIndex_cases (Query.matcher n) (Query.queries this))
    as [[-> _] | (j & x & -> & Hl & _)].
  - simpl. by rewrite Nat2Z.id, array_set_end.
  - rewrite of_nat_not_negative, Nat2Z.id.
    apply array_set_in_range. eapply lookup_lt_Some; eassumption.
Qed.

Lemma set_unique this q this' :
  unique this → Query.set this q = Ok this' → unique this'.
Proof.
  unfold unique. intros Hu Hset.
  destruct (Query.nameOrAlias q) as [n|] eqn:Hn;
    [|by unfold Query.set in Hset; rewrite Hn in Hset].
  destruct (Query.s_query q) as [text|] eqn:Hq; cycle 1.
  { unfold Query.set in Hset. rewrite Hn, Hq in Hset. cbn in Hset.
    by destruct (String.length n =? 0)%nat. }
  destruct (decide (n = "")) as [->|Hne];
    [by unfold Query.set in Hset; rewrite Hn in Hset|].
  destruct (decide (text = "")) as [->|Hqe].
  { unfold Query.set in Hset. rewrite Hn, Hq in Hset. unfold Query.opt_str in Hset.
    by rewrite (isEmpty_name n Hne) in Hset. }
  destruct (set_returns this q n text Hn Hne Hq Hqe) as (r & Hr & Hqs).
  rewrite Hset in Hr. injection Hr as <-. rewrite Hqs. simpl.
  destruct (findIndex_cases (Query.matcher n) (Query.queries this))
    as [[-> Hall] | (j & x & -> & Hl & Hp & _)]; simpl.
  - rewrite names_app. apply NoDup_app. repeat split; [assumption | | ].
    + intros m Hm Hm'. apply list_elem_of_singleton in Hm'. subst m.
      by apply (names_no_match n) in Hall.
    + apply NoDup_singleton.
  - apply matcher_true in Hp as (e0 & -> & He0).
    rewrite of_nat_not_negative, Nat2Z.id.
    by rewrite (names_insert_same _ _ e0).
Qed.

Lemma set_calls_unique this this' :
  set_calls this this' → unique this → unique this'.
Proof. induction 1; eauto using set_unique. Qed.

Lemma reset_unique : unique Query.reset.
Proof. constructor. Qed.

(** Whatever sequence of [set] calls a fresh registry has seen, it holds at
    most one entry per name. *)
Lemma set_calls_from_reset_unique this :
  set_calls Query.reset this → unique this.
Proof. intros Hcalls. eapply set_calls_unique; [eassumption | apply reset_unique]. Qed.

(** C8: [set] under a name that is not empty, with a query text that is
    not empty, on a registry with at most one entry per name: when an entry
    of that name sits at position [i] (position 0 included) it is replaced
    there and the list keeps its length; when there is none the new entry is
    appended; and the registry reached by this call and by any further
    sequence of [set] calls still has at most one entry per name. *)
Theorem set_replaces_in_place_or_appends this q n text :
  unique this →
  Query.nameOrAlias q = Some n → n ≠ "" →
  Query.s_query q = Some text → text ≠ "" →
  ∃ this',
    Query.set this q = Ok this'
    ∧ (∀ (i : nat) e0,
          Query.queries this !! i = Some (Some e0) → Query.name e0 = n →
          Query.queries this'
            = <[i := Some {| Query.name := n; Query.query := text;
                             Query.args := default (VObj []) (Query.s_args q) |}]>
                (Query.queries this)
          ∧ length (Query.queries this') = length (Query.queries this))
    ∧ (n ∉ names (Query.queries this) →
          Query.queries this'
            = Query.queries this
                ++ [Some {| Query.name := n; Query.query := text;
                            Query.args := default (VObj []) (Query.s_args q) |}])
    ∧ (∀ this'', set_calls this' this'' → unique this'').
Proof.
  intros Hu Hn Hne Hq Hqe.
  destruct (set_returns this q n text Hn Hne Hq Hqe) as (this' & Hset & Hqs).
  exists this'. split; [assumption|]. simpl in Hqs.
  assert (Hlater : ∀ this'', set_calls this' this'' → unique this'').
  { intros this'' Hcalls. eapply set_calls_unique; [eassumption|].
    eapply set_unique; eassumption. }
  destruct (findIndex_cases (Query.matcher n) (Query.queries this))
    as [[Hpos Hall] | (j & x & Hpos & Hl & Hp & _)]; rewrite Hpos in Hqs.
  - apply (names_no_match n) in Hall. simpl in Hqs.
    split; [|by split].
    intros i e0 Hi He0. exfalso. apply Hall. rewrite <- He0.
    eapply lookup_names; eassumption.
  - apply matcher_true in Hp as (e1 & -> & He1).
    rewrite of_nat_not_negative, Nat2Z.id in Hqs.
    split; [|split; [|assumption]].
    + intros i e0 Hi He0.
      assert (i = j) as ->
        by (eapply unique_position; [exact Hu | eassumption.. | congruence]).
      rewrite Hqs. split; [reflexivity | apply length_insert].
    + intros Hnot. exfalso. apply Hnot. rewrite <- He1.
      eapply lookup_names; eassumption.
Qed.

Lemma position_zero_is_not_found this e rest :
  Query.queries this = Some e :: rest →
  Query.get this (Query.name e) = Query.Null
  ∧ Query.unset this (Query.name e) = this.
Proof.
  intros Hq. unfold Query.get, Query.unset, Utils.findIndex. rewrite Hq. simpl.
  by rewrite String.eqb_refl.
Qed.

(** C1 fails on the code.  Whatever registry holds an entry at position 0,
    [get] of that entry's name answers [null] and [unset] of it leaves the
    registry as it was: [!pos] takes the index 0 for "not found".  In the
    registry that holds ["first"] at position 0 and ["second"] at position
    1, the entry at position 1 is found and removed, the one at position 0
    is not. *)
Theorem get_and_unset_miss_position_zero :
  (∀ this e rest,
      Query.queries this = Some e :: rest →
      Query.get this (Query.name e) = Query.Null
      ∧ Query.unset this (Query.name e) = this)
  ∧ Query.get two_entries "first" = Query.Null
  ∧ Query.unset two_entries "first" = two_entries
  ∧ Query.get two_entries "second" = Query.Entry second
  ∧ Query.queries (Query.unset two_entries "second") = [Some first; None].
Proof. split; [apply position_zero_is_not_found | repeat split]. Qed.

Lemma set_replaces_in_place_or_appends_witness :
  ∃ this',
    Query.set two_entries first_again = Ok this'
    ∧ Query.queries this'
      = [Some {| Query.name := "first"; Query.query := "first{id name}";
                 Query.args := VObj [] |};
         Some second]
    ∧ unique this'.
Proof.
  destruct (set_replaces_in_place_or_appends two_entries first_again
              "first" "first{id name}")
    as (this' & Hset & Hreplace & _ & Hunique).
  - apply (bool_decide_unpack _). vm_compute. exact I.
  - reflexivity.
  - discriminate.
  - reflexivity.
  - discriminate.
  - exists this'. split; [exact Hset|]. split.
    + by destruct (Hreplace 0%nat first eq_refl eq_refl) as [-> _].
    + apply Hunique. constructor.
Defined.

(** ** [exec]: composing and sending *)

(** C7: on a registry with no entry (so in particular whenever
    [hasQueries()] is false), [exec] resolves with the sentinel and touches
    nothing: the world it leaves, and so the list of transport calls, is
    the one it found, whatever [__send] the class has. *)
Theorem exec_without_entries_sends_nothing
    send G w rep this variables headers :
  Query.present (Query.queries this) = [] →
  Query.exec send G w rep this variables headers
  = (Query.Resolves Query.Sentinel, this, w).
Proof. unfold Query.exec. by intros ->. Qed.

Lemma hasQueries_false_no_entry this :
  Query.hasQueries this = false → Query.present (Query.queries this) = [].
Proof.
  unfold Query.hasQueries. destruct (Query.queries this) as [|x l]; [done|].
  simpl length. intros Hnone. apply Z.ltb_ge in Hnone. lia.
Qed.

Lemma exec_without_entries_sends_nothing_witness :
  Query.present (Query.queries Query.reset) = []
  ∧ Query.exec Query.__send no_globals configured (Client.Fulfilled two_errors)
      Query.reset ∅ None
    = (Query.Resolves Query.Sentinel, Query.reset, configured).
Proof.
  split; [reflexivity|].
  apply exec_without_entries_sends_nothing. reflexivity.
Defined.

Lemma foldM_cons {A B} (f : A -> B -> result A) x l a :
  foldM f (x :: l) a = (a' ← f a x; foldM f l a').
Proof. reflexivity. Qed.

(** A turn of the loop of [__getQuery] never completes while [query] is
    still the entry object. *)
Lemma getQuery_arg_throws G variables args e b key :
  ∃ err, Query.__getQuery_arg G variables args (Query.QEntry e, b) key = Throw err.
Proof.
  unfold Query.__getQuery_arg.
  destruct (Query.destructure (get_prop args key)) as [[type value]|err];
    cbn; [|by eexists].
  destruct (Query.global "name" (Query.g_name G)) as [name|err]; cbn; [|by eexists].
  destruct (Query.match_Int type) as [is_int|err]; cbn; by eexists.
Qed.

Lemma Object_keys_nonempty args :
  negb (truthy args) || Utils.isEmpty args = false → Object_keys args ≠ [].
Proof.
  unfold Object_keys.
  destruct args as [| |b|z| |s|elems|props]; try discriminate.
  - by destruct b.
  - by destruct z.
  - by destruct s.
  - by destruct elems.
  - by destruct props.
Qed.

(** All [__getQuery] can do without throwing is push the entry object
    itself; it never binds an argument. *)
Lemma getQuery_pushes_entry G e b variables b' :
  Query.__getQuery G e b variables = Ok b' → b' = Query.push (Query.QEntry e) b.
Proof.
  unfold Query.__getQuery.
  destruct (Query.global "args" (Query.g_args G)) as [args|err]; cbn; [|done].
  destruct (negb (truthy args) || Utils.isEmpty args) eqn:Hargs; [congruence|].
  apply Object_keys_nonempty in Hargs.
  destruct (Object_keys args) as [|key keys]; [done|].
  rewrite foldM_cons.
  destruct (getQuery_arg_throws G variables args e b key) as [err ->]. done.
Qed.

(** ** Settling: the handlers run without [this] *)

Lemma handleResponse_unbound res :
  ∃ err, Query.__handleResponse None res = Throw err.
Proof.
  unfold Query.__handleResponse.
  destruct (negb (truthy res)); [by eexists|].
  destruct (Utils.isArray res); [by eexists|].
  destruct (nullish (get_prop res "data")); [by eexists|].
  destruct (truthy (get_prop (get_prop res "data") "errors")); by eexists.
Qed.

Lemma handleErrorResponse_throws this err :
  ∃ e, Query.__handleErrorResponse this err = Throw e.
Proof. destruct this; by eexists. Qed.

Lemma settle_rejects this w rep :
  ∃ err, Query.settle this w rep = (Query.Rejects err, this, w).
Proof.
  destruct rep as [res|e]; simpl.
  - unfold Query.then_handleResponse, Query.callback_this.
    destruct (handleResponse_unbound res) as [err ->]. by eexists.
  - by eexists.
Qed.

(** With [this] bound, the handler does build the [serverError] entry from
    the last element of the list. *)
Lemma handleResponse_bound_reports_last this body es e :
  get_prop body "errors" = VArr (es ++ [e]) → nullish e = false →
  Query.__handleResponse (Some this) (VObj [("data", body)])
  = Ok (Query.Tuple
          (<["serverError" := VObj [("message", get_prop e "message");
                                    ("code", VStr "serverError")]]>
             (Query.errors this)) None,
        Query.with_errors
          (<["serverError" := VObj [("message", get_prop e "message");
                                    ("code", VStr "serverError")]]>
             (Query.errors this)) this,
        []).
Proof.
  intros Herrs He. unfold Query.__handleResponse. simpl truthy. simpl Utils.isArray.
  cbn [negb]. change (get_prop (VObj [("data", body)]) "data") with body.
  assert (nullish body = false) as -> by (destruct body; try done; by destruct es).
  rewrite Herrs. simpl truthy. cbn iota.
  unfold Query.__serverError. cbn. rewrite last_snoc. cbn. by rewrite He.
Qed.

(** What either [__send] can do: throw because no url is configured, or
    hand one request to the transport and reject. *)
Lemma send_never_resolves this w rep headers doc vars :
  ∃ err, (Query.__send this w rep headers doc vars).1.1 = Query.Throws err
         ∨ (Query.__send this w rep headers doc vars).1.1 = Query.Rejects err.
Proof.
  unfold Query.__send.
  destruct (Client.GQLClientQuery _ _ _) as [w'|err]; [|by eexists; left].
  destruct (settle_rejects (Query.with_errors ∅ this) w' rep) as [err ->].
  by eexists; right.
Qed.

Lemma mutation_send_never_resolves this w rep headers doc vars :
  ∃ err, (Mutation.__send this w rep headers doc vars).1.1 = Query.Throws err
         ∨ (Mutation.__send this w rep headers doc vars).1.1 = Query.Rejects err.
Proof.
  unfold Mutation.__send.
  destruct (Client.GQLClientMutation _ _ _) as [w'|err]; [|by eexists; left].
  destruct (settle_rejects this w' rep) as [err ->].
  by eexists; right.
Qed.

(** The only value the promise of [exec] ever resolves with is the
    sentinel. *)
Lemma exec_resolves_only_with_sentinel G w rep this variables headers v :
  (Query.exec Query.__send G w rep this variables headers).1.1 = Query.Resolves v →
  v = Query.Sentinel.
Proof.
  unfold Query.exec.
  destruct (foldM _ _ _) as [b|err]; [|discriminate].
  destruct (length (Query.b_queries b) =? 0)%nat; [by intros [= <-]|].
  destruct (Query.compose this b) as [doc vars].
  destruct (send_never_resolves this w rep headers doc vars) as [err [-> | ->]];
    discriminate.
Qed.

Lemma settle_wire this w rep :
  (Query.settle this w rep).2 = w.
Proof. by destruct (settle_rejects this w rep) as [err ->]. Qed.

(** C3 fails on the code.  For the registry that holds the single entry
    [getUser] and the call [exec({id: "7"})]: where the global scope
    declares no [args] the call throws a [ReferenceError] and nothing is
    sent; and whatever the global scope holds, the transport is handed at
    most one request, whose document is the entry object turned into a
    string and whose variables are [null].  No [$getUser_id: Int] is
    declared and no [{getUser_id: 7}] is sent. *)
Theorem exec_getUser_binds_no_argument :
  (∀ w rep,
      Query.exec Query.__send no_globals w rep getUser_registry
        {["id" := VStr "7"]} None
      = (Query.Throws (ReferenceError "args"), getUser_registry, w))
  ∧ (∀ G w rep,
        let w' := (Query.exec Query.__send G w rep getUser_registry
                     {["id" := VStr "7"]} None).2 in
        Client.wire w' = Client.wire w
        ∨ ∃ u, Client.wire w'
               = Client.wire w
                   ++ [ {| Client.r_verb := Client.GET; Client.r_url := u;
                           Client.r_body :=
                             {| Client.p_query := "query {[object Object]}";
                                Client.p_variables := None |};
                           Client.r_headers := ∅ |} ]).
Proof.
  split; [reflexivity|].
  intros G w rep. unfold Query.exec. simpl Query.present. rewrite foldM_cons.
  destruct (Query.__getQuery G _ _ _) as [b|err] eqn:Hget; [|by left].
  apply getQuery_pushes_entry in Hget as ->. cbn.
  unfold Query.__send, Client.GQLClientQuery.
  destruct (Client.configured_url (Client.proto w)) as [u|]; [|by left].
  rewrite settle_wire. right. by exists u.
Qed.

(** ** The client: headers *)

(** The transport is given the call's headers alone, and the configured
    headers take the call's headers in. *)
Lemma client_query_headers w hdrs q w' :
  Client.GQLClientQuery w hdrs q = Ok w' →
  ∃ u, Client.wire w'
       = Client.wire w ++ [ {| Client.r_verb := Client.GET; Client.r_url := u;
                               Client.r_body := q;
                               Client.r_headers := default ∅ hdrs |} ]
       ∧ Client.headers (Client.proto w')
         = (fun h => default ∅ hdrs ∪ h) <$> Client.headers (Client.proto w).
Proof.
  unfold Client.GQLClientQuery.
  destruct (Client.configured_url (Client.proto w)) as [u|]; [|discriminate].
  intros [= <-]. by exists u.
Qed.

(** C4 fails on the code.  With [{A: "1"}] configured, a call that brings
    the headers [{B: "2"}] hands the transport [{B: "2"}] alone, not the
    merge, and leaves [{A: "1", B: "2"}] in the configured object; the same
    holds through [post], and through [exec] once it reaches [__send]. *)
Theorem client_call_leaks_headers_into_configuration :
  Client.GQLClientQuery configured (Some {["B" := VStr "2"]}) a_query
  = Ok {| Client.proto :=
            {| Client.url := Some "http://gql";
               Client.headers := Some {["A" := VStr "1"; "B" := VStr "2"]} |};
          Client.wire :=
            [ {| Client.r_verb := Client.GET; Client.r_url := "http://gql";
                 Client.r_body := a_query;
                 Client.r_headers := {["B" := VStr "2"]} |} ];
          Client.calls := [] |}
  ∧ Client.GQLClientMutation configured (Some {["B" := VStr "2"]}) a_query
    = Ok {| Client.proto :=
              {| Client.url := Some "http://gql";
                 Client.headers := Some {["A" := VStr "1"; "B" := VStr "2"]} |};
            Client.wire :=
              [ {| Client.r_verb := Client.POST; Client.r_url := "http://gql";
                   Client.r_body := a_query;
                   Client.r_headers := {["B" := VStr "2"]} |} ];
            Client.calls := [] |}
  ∧ (Query.exec Query.__send args_declared configured
       (Client.Fulfilled (VObj [("data", VObj [])])) getUser_registry ∅
       (Some {["B" := VStr "2"]})).2
    = {| Client.proto :=
           {| Client.url := Some "http://gql";
              Client.headers := Some {["A" := VStr "1"; "B" := VStr "2"]} |};
         Client.wire :=
           [ {| Client.r_verb := Client.GET; Client.r_url := "http://gql";
                Client.r_body :=
                  {| Client.p_query := "query {[object Object]}";
                     Client.p_variables := None |};
                Client.r_headers := {["B" := VStr "2"]} |} ];
         Client.calls := [] |}
  ∧ Client.headers (Client.proto configured) = Some {["A" := VStr "1"]}.
Proof. repeat split. Qed.

(** ** The single-shot runners *)

(** When the map holds a [serverError] and the object has an [onError],
    the closure does call it with that error. *)
Lemma handleResponse_serverError q errs data err f :
  errs !! "serverError" = Some err → truthy err = true →
  Query.onError q = Some f →
  Query.handleResponse q (Query.Tuple errs data)
  = Ok (Query.FromCallback f, [(f, err)]).
Proof.
  intros Herr Ht Hf. unfold Query.handleResponse, Query.call_onError.
  rewrite Herr. simpl. by rewrite Ht, Hf.
Qed.


(** C6 fails on the code.  For the registry that holds [getUser] and a
    transport that answers [{errors: [{message: "boom"}, {message:
    "final"}]}]: where the global scope declares no [args], [exec] throws
    before anything is sent; where it does, the request goes out and the
    promise is rejected with a [TypeError], because the handler runs
    without [this].  In general the promise of [exec] resolves with the
    sentinel or not at all, for the query and for the mutation class. *)
Theorem exec_never_resolves_with_an_error_map :
  (∀ w,
      Query.exec Query.__send no_globals w (Client.Fulfilled two_errors)
        getUser_registry ∅ None
      = (Query.Throws (ReferenceError "args"), getUser_registry, w))
  ∧ (Query.exec Query.__send args_declared configured
       (Client.Fulfilled two_errors) getUser_registry ∅ None).1.1
    = Query.Rejects (TypeError "Cannot read property '__serverError' of undefined")
  ∧ (∀ G w rep this variables headers errs data,
        (Query.exec Query.__send G w rep this variables headers).1.1
        ≠ Query.Resolves (Query.Tuple errs data))
  ∧ (∀ G w rep this variables headers errs data,
        (Query.exec Mutation.__send G w rep this variables headers).1.1
        ≠ Query.Resolves (Query.Tuple errs data)).
Proof.
  split; [reflexivity|]. split; [reflexivity|]. split.
  - intros G w rep this variables headers errs data Hres.
    by apply exec_resolves_only_with_sentinel in Hres.
  - intros G w rep this variables headers errs data. unfold Query.exec.
    destruct (foldM _ _ _) as [b|err]; [|discriminate].
    destruct (length (Query.b_queries b) =? 0)%nat; [discriminate|].
    destruct (Query.compose this b) as [doc vars].
    destruct (mutation_send_never_resolves this w rep headers doc vars)
      as [err [-> | ->]]; discriminate.
Qed.

(** ** The store: [unsetSync] *)

(** [unsetSync] never notifies: it tests the result of [unset], and [unset]
    returns nothing. *)
Lemma unsetSync_never_notifies this name :
  (QueryState.unsetSync this name).2 = [].
Proof.
  unfold QueryState.unsetSync, QueryState.unset.
  by destruct (negb (truthy (QueryState.field this name))).
Qed.

(** A field that is absent: nothing changes and nobody is notified. *)
Lemma unsetSync_absent this name :
  QueryState.state this !! name = None →
  QueryState.unsetSync this name = (this, []).
Proof.
  intros Habsent. unfold QueryState.unsetSync, QueryState.unset, QueryState.field.
  by rewrite Habsent.
Qed.

(** C2 fails on the code.  [unsetSync] notifies nobody, whatever the store
    and the field.  In a store that holds [{a: 1}] and has one subscriber,
    [unsetSync("a")] removes the field and no subscriber is called, where
    [setSync("a", 2)] on the same store calls it; in a store that holds
    [{a: 0}] the field is not removed either, since [unset] tests the value
    of the field, not its presence. *)
Theorem unsetSync_removes_without_notifying :
  (∀ this name, (QueryState.unsetSync this name).2 = [])
  ∧ QueryState.unsetSync (store_with {["a" := VNum 1]} [other]) "a"
    = (QueryState.with_state ∅ {["a" := VNum 1]}
         (store_with {["a" := VNum 1]} [other]),
       [])
  ∧ (QueryState.setSync (store_with {["a" := VNum 1]} [other])
       (QueryState.Key "a") (VNum 2)).2
    = [ {| QueryState.n_callback := other;
           QueryState.n_state := {["a" := VNum 2]};
           QueryState.n_oldState := {["a" := VNum 1]} |} ]
  ∧ QueryState.unsetSync (store_with {["a" := VNum 0]} [other]) "a"
    = (store_with {["a" := VNum 0]} [other], []).
Proof. split; [apply unsetSync_never_notifies | repeat split]. Qed.

(** The other notifying mutators do notify: after construction with
    [{a: 0}], [resetSync({a: 1})] hands the subscriber the new and the
    previous snapshot. *)
Lemma resetSync_notifies :
  (QueryState.resetSync (store_with {["a" := VNum 0]} [other]) {["a" := VNum 1]}).2
  = [ {| QueryState.n_callback := other;
         QueryState.n_state := {["a" := VNum 1]};
         QueryState.n_oldState := {["a" := VNum 0]} |} ].
Proof. reflexivity. Qed.

(** ** The store: subscribers *)

Lemma subscribe_invalid this callback :
  ¬ named_function callback →
  QueryState.subscribe this callback = (this, VBool false).
Proof.
  destruct callback as [v|f]; simpl; [done|].
  intros Hanon. destruct (String.eqb_spec (fn_name f) ""); [done|].
  by destruct Hanon.
Qed.

Lemma subscribed_app n this f :
  subscribed n (QueryState.with_subscribers (QueryState.subscribers this ++ [f]) this)
  = (subscribed n this + (if decide (fn_name f = n) then 1 else 0))%nat.
Proof.
  unfold subscribed. simpl. rewrite filter_app, length_app. f_equal.
  rewrite filter_cons, filter_nil. by destruct (decide (fn_name f = n)).
Qed.

(** One [subscribe] with a named function leaves one subscriber under its
    name when there was none, and changes nothing when there was one. *)
Lemma subscribe_named this f :
  fn_name f ≠ "" →
  subscribed (fn_name f) (QueryState.subscribe this (QueryState.Function f)).1
  = Nat.max 1 (subscribed (fn_name f) this).
Proof.
  intros Hnamed. unfold QueryState.subscribe.
  destruct (String.eqb_spec (fn_name f) ""); [done|].
  fold (subscribed (fn_name f) this).
  destruct (subscribed (fn_name f) this) as [|k] eqn:Hcount; simpl.
  - rewrite subscribed_app, Hcount. by rewrite decide_True.
  - rewrite Hcount. lia.
Qed.

(** C9, as amended: in a store that holds at most one subscriber under the
    name, subscribing two named functions of that name leaves exactly one
    subscriber under it; and [subscribe] with data or with an anonymous
    function returns [false] and leaves the store as it was. *)
Theorem subscribe_keeps_one_per_name this f g :
  fn_name f ≠ "" → fn_name g = fn_name f →
  (subscribed (fn_name f) this ≤ 1)%nat →
  subscribed (fn_name f)
    (QueryState.subscribe
       (QueryState.subscribe this (QueryState.Function f)).1
       (QueryState.Function g)).1 = 1%nat
  ∧ (∀ callback, ¬ named_function callback →
        QueryState.subscribe this callback = (this, VBool false)).
Proof.
  intros Hnamed Hsame Hone. split; [|apply subscribe_invalid].
  rewrite <- Hsame. rewrite subscribe_named by congruence.
  rewrite Hsame. rewrite subscribe_named by assumption. lia.
Qed.

Lemma subscribe_keeps_one_per_name_witness :
  subscribed "onChange"
    (QueryState.subscribe
       (QueryState.subscribe (store_with ∅ [other]) (QueryState.Function onChange1)).1
       (QueryState.Function onChange2)).1 = 1%nat.
Proof.
  apply (subscribe_keeps_one_per_name (store_with ∅ [other]) onChange1 onChange2).
  - discriminate.
  - reflexivity.
  - vm_compute. lia.
Defined.

(** C9 as stated fails on a store that was built with two subscribers of
    one name: the constructor takes the list as it is, and [subscribe]
    then finds the name taken and adds nothing, so two remain. *)
Lemma subscribe_keeps_duplicates_of_constructor :
  onChange3 ≠ onChange4
  ∧ fn_name onChange3 = fn_name onChange4
  ∧ subscribed "onChange"
      (QueryState.subscribe
         (QueryState.subscribe (store_with ∅ [onChange1; onChange2])
            (QueryState.Function onChange3)).1
         (QueryState.Function onChange4)).1 = 2%nat.
Proof. repeat split. discriminate. Qed.

Lemma filter_out_none n (l : list fn) :
  filter (fun cb => fn_name cb = n) (filter (fun cb => fn_name cb ≠ n) l) = [].
Proof.
  induction l as [|x l IH]; [done|].
  rewrite (filter_cons (fun cb => fn_name cb ≠ n)).
  destruct (decide (fn_name x ≠ n)) as [Hne|]; [|assumption].
  rewrite filter_cons. by destruct (decide (fn_name x = n)).
Qed.

Lemma filter_out_absent n (l : list fn) :
  length (filter (fun cb => fn_name cb = n) l) = 0%nat →
  filter (fun cb => fn_name cb ≠ n) l = l.
Proof.
  induction l as [|x l IH]; [done|]. rewrite !filter_cons.
  destruct (decide (fn_name x = n)) as [|Hne]; [discriminate|].
  intros Hnone. destruct (decide (fn_name x ≠ n)); [|done].
  f_equal. by apply IH.
Qed.

(** C10: [unsubscribe] returns [true] exactly for a named function and
    [false] for anything else; for a named function the subscribers left
    are those of another name, in their order, so none of that name is
    left; and when none of that name was present the list is unchanged. *)
Theorem unsubscribe_removes_by_name this callback :
  ((QueryState.unsubscribe this callback).2 = VBool true ↔ named_function callback)
  ∧ ((QueryState.unsubscribe this callback).2 = VBool false
     ↔ ¬ named_function callback)
  ∧ (∀ f, callback = QueryState.Function f → fn_name f ≠ "" →
       QueryState.subscribers (QueryState.unsubscribe this callback).1
       = filter (fun cb => fn_name cb ≠ fn_name f) (QueryState.subscribers this)
       ∧ subscribed (fn_name f) (QueryState.unsubscribe this callback).1 = 0%nat
       ∧ (subscribed (fn_name f) this = 0%nat →
          QueryState.subscribers (QueryState.unsubscribe this callback).1
          = QueryState.subscribers this)).
Proof.
  destruct callback as [v|f]; simpl.
  - repeat split; try done. by intros _ [].
  - destruct (String.eqb_spec (fn_name f) "") as [Hanon|Hnamed]; simpl.
    + split; [split; [done | by intros Hnamed]|].
      split; [split; [by intros _ Hnamed | done]|].
      intros g [= <-] Hnamed. done.
    + split; [done|]. split; [split; [done | by intros []]|].
      intros g [= <-] _. split; [reflexivity|]. unfold subscribed. simpl. split.
      * by rewrite filter_out_none.
      * apply filter_out_absent.
Qed.

(** ** More on the registry *)

Lemma findIndex_from_at {A} (p : option A -> bool) (l : list (option A)) (k : Z)
    (j : nat) x :
  l !! j = Some x → p x = true → Forall (fun y => p y = false) (take j l) →
  Utils.findIndex_from k p l = k + Z.of_nat j.
Proof.
  revert k j. induction l as [|a l IH]; intros k j Hl Hp Hall; [done|].
  destruct j as [|j]; simpl in *.
  - injection Hl as ->. rewrite Hp. lia.
  - apply Forall_cons in Hall as [-> Hall].
    rewrite (IH (k + 1) j) by assumption. lia.
Qed.

Lemma findIndex_at {A} (p : option A -> bool) (l : list (option A)) (j : nat) x :
  l !! j = Some x → p x = true → Forall (fun y => p y = false) (take j l) →
  Utils.findIndex l p = Z.of_nat j.
Proof. intros. unfold Utils.findIndex. by erewrite findIndex_from_at. Qed.

Lemma findIndex_none {A} (p : option A -> bool) (l : list (option A)) :
  Forall (fun y => p y = false) l → Utils.findIndex l p = -1.
Proof.
  intros Hall.
  destruct (findIndex_cases p l) as [[H _] | (j & x & _ & Hl & Hp & _)]; [done|].
  apply list_elem_of_lookup_2 in Hl.
  rewrite Forall_forall in Hall. apply Hall in Hl. congruence.
Qed.

Lemma no_match_names n l :
  n ∉ names l → Forall (fun x => Query.matcher n x = false) l.
Proof.
  intros Hnot. apply Forall_forall. intros x Hx.
  destruct (Query.matcher n x) eqn:Hm; [|done].
  apply matcher_true in Hm as (e & -> & <-).
  apply list_elem_of_lookup_1 in Hx as [i Hi].
  exfalso. apply Hnot. eapply lookup_names; eassumption.
Qed.

Lemma get_found this n (j : nat) e :
  Utils.findIndex (Query.queries this) (Query.matcher n) = Z.of_nat j →
  j ≠ 0%nat → Query.queries this !! j = Some (Some e) →
  Query.get this n = Query.Entry e.
Proof.
  intros Hpos Hj Hl. unfold Query.get, Query.at_index. rewrite Hpos.
  destruct (Z.eqb_spec (Z.of_nat j) 0) as [|_]; [lia|].
  by rewrite of_nat_not_negative, Nat2Z.id, Hl.
Qed.

(** X1: [set] returns exactly when the name and the query text are both
    present and not empty; otherwise it throws, the name being checked
    first. *)
Theorem set_validates_name_then_query this q :
  (missing (Query.nameOrAlias q) →
     Query.set this q = Throw (Error "Missing query name!"))
  ∧ (¬ missing (Query.nameOrAlias q) → missing (Query.s_query q) →
       Query.set this q = Throw (Error "Missing query definition!"))
  ∧ (¬ missing (Query.nameOrAlias q) → ¬ missing (Query.s_query q) →
       ∃ this', Query.set this q = Ok this').
Proof.
  unfold missing, Query.set.
  destruct (Query.nameOrAlias q) as [[|c n]|], (Query.s_query q) as [[|d t]|];
    cbn; repeat split; try done; try (intros []; congruence);
    try (intros H; exfalso; apply H; by auto);
    try (intros _ H; exfalso; apply H; by auto);
    try (intros _ []; congruence); try (intros _ _; by eexists).
Qed.

Lemma set_callbacks this q this' n :
  Query.set this q = Ok this' → Query.nameOrAlias q = Some n →
  Query.successCallbacks this'
  = match Query.onSuccess q with
    | Some f => <[n := f]> (Query.successCallbacks this)
    | None => Query.successCallbacks this
    end
  ∧ Query.errorCallbacks this'
    = match Query.onError q with
      | Some f => <[n := f]> (Query.errorCallbacks this)
      | None => Query.errorCallbacks this
      end.
Proof.
  unfold Query.set. intros Hset Hn. rewrite Hn in Hset.
  destruct (Utils.devAssert (negb (Utils.isEmpty (Query.opt_str (Some n)))) _);
    cbn in Hset; [|done].
  destruct (Utils.devAssert _ _); cbn in Hset; [|done].
  by injection Hset as <-.
Qed.

(** X2: a callback registered with an entry stays registered when the
    entry is set again without one, is replaced when it is set again with
    one, and is untouched by a [set] under another name. *)
Theorem set_keeps_callbacks_unless_replaced this q1 this1 q2 this2 n m f :
  Query.set this q1 = Ok this1 → Query.set this1 q2 = Ok this2 →
  Query.nameOrAlias q1 = Some n → Query.onSuccess q1 = Some f →
  Query.nameOrAlias q2 = Some m →
  Query.successCallbacks this2 !! n
  = match Query.onSuccess q2 with
    | Some g => if decide (m = n) then Some g else Some f
    | None => Some f
    end.
Proof.
  intros Hset1 Hset2 Hn Hf Hm.
  destruct (set_callbacks _ _ _ _ Hset1 Hn) as [Hs1 _].
  destruct (set_callbacks _ _ _ _ Hset2 Hm) as [Hs2 _].
  rewrite Hs2, Hs1, Hf.
  destruct (Query.onSuccess q2) as [g|]; [|by rewrite lookup_insert_eq].
  destruct (decide (m = n)) as [->|Hne]; [by rewrite lookup_insert_eq|].
  by rewrite lookup_insert_ne, lookup_insert_eq.
Qed.

Lemma set_keeps_callbacks_unless_replaced_witness :
  ∃ this1 this2,
    Query.set two_entries second_with_callback = Ok this1
    ∧ Query.set this1 second_again = Ok this2
    ∧ Query.successCallbacks this2 !! "second" = Some onSaved.
Proof.
  destruct (set_returns two_entries second_with_callback "second" "second{id}")
    as (this1 & Hset1 & _); [reflexivity | discriminate | reflexivity | discriminate |].
  destruct (set_returns this1 second_again "second" "second{id name}")
    as (this2 & Hset2 & _); [reflexivity | discriminate | reflexivity | discriminate |].
  exists this1, this2. split; [exact Hset1|]. split; [exact Hset2|].
  exact (set_keeps_callbacks_unless_replaced two_entries second_with_callback
           this1 second_again this2 "second" "second" onSaved
           Hset1 Hset2 eq_refl eq_refl eq_refl).
Defined.

(** X3: after [set] has returned, [get] of the same name answers with the
    entry just stored, unless that entry sits at position 0 (the registry
    was empty, or its first slot held the name), where [get] answers
    [null]. *)
Theorem get_after_set this q n text this' :
  Query.nameOrAlias q = Some n → n ≠ "" →
  Query.s_query q = Some text → text ≠ "" →
  Query.set this q = Ok this' →
  Query.get this' n
  = match Query.queries this with
    | [] => Query.Null
    | x :: _ =>
        if Query.matcher n x then Query.Null
        else Query.Entry {| Query.name := n; Query.query := text;
                            Query.args := default (VObj []) (Query.s_args q) |}
    end.
Proof.
  intros Hn Hne Hq Hqe Hset.
  destruct (set_returns this q n text Hn Hne Hq Hqe) as (r & Hr & Hqs).
  rewrite Hset in Hr. injection Hr as <-. simpl in Hqs.
  set (e := {| Query.name := n; Query.query := text;
               Query.args := default (VObj []) (Query.s_args q) |}) in *.
  assert (He : Query.matcher n (Some e) = true) by (simpl; apply String.eqb_refl).
  destruct (findIndex_cases (Query.matcher n) (Query.queries this))
    as [[Hpos Hall] | (j & x & Hpos & Hl & Hp & Hall)]; rewrite Hpos in Hqs.
  - simpl in Hqs.
    assert (Hfind : Utils.findIndex (Query.queries this') (Query.matcher n)
                    = Z.of_nat (length (Query.queries this))).
    { rewrite Hqs. apply (findIndex_at _ _ _ (Some e)); [|done|].
      - by rewrite lookup_app_r, Nat.sub_diag.
      - by rewrite take_app_length. }
    destruct (Query.queries this) as [|x l] eqn:Hl.
    + unfold Query.get. by rewrite Hfind.
    + apply Forall_cons in Hall as [-> _].
      apply (get_found _ _ (length (x :: l))); [done | done |].
      rewrite Hqs. by rewrite lookup_app_r, Nat.sub_diag.
  - rewrite of_nat_not_negative, Nat2Z.id in Hqs.
    assert (Hlt : (j < length (Query.queries this))%nat)
      by (eapply lookup_lt_Some; eassumption).
    assert (Hfind : Utils.findIndex (Query.queries this') (Query.matcher n)
                    = Z.of_nat j).
    { rewrite Hqs. apply (findIndex_at _ _ _ (Some e)); [|done|].
      - by apply list_lookup_insert_eq.
      - by rewrite take_insert_ge. }
    destruct (Query.queries this) as [|y l] eqn:Hqueries; [done|].
    destruct j as [|j].
    + simpl in Hl. injection Hl as ->. rewrite Hp.
      unfold Query.get. by rewrite Hfind.
    + simpl in Hall. apply Forall_cons in Hall as [-> _].
      apply (get_found _ _ (S j)); [done | done |].
      rewrite Hqs. by apply list_lookup_insert_eq.
Qed.

Lemma get_after_set_witness :
  ∃ this',
    Query.set two_entries second_again = Ok this'
    ∧ Query.get this' "second"
      = Query.Entry {| Query.name := "second"; Query.query := "second{id name}";
                       Query.args := VObj [] |}.
Proof.
  destruct (set_returns two_entries second_again "second" "second{id name}")
    as (this' & Hset & _); [reflexivity | discriminate | reflexivity | discriminate |].
  exists this'. split; [exact Hset|].
  exact (get_after_set two_entries second_again "second" "second{id name}" this'
           eq_refl ltac:(discriminate) eq_refl ltac:(discriminate) Hset).
Defined.

Lemma unique_findIndex this (i : nat) e :
  unique this → Query.queries this !! i = Some (Some e) →
  Utils.findIndex (Query.queries this) (Query.matcher (Query.name e)) = Z.of_nat i.
Proof.
  intros Hu Hi.
  destruct (findIndex_cases (Query.matcher (Query.name e)) (Query.queries this))
    as [[_ Hall] | (j & x & -> & Hl & Hp & _)].
  - apply names_no_match in Hall. exfalso. apply Hall.
    eapply lookup_names; eassumption.
  - apply matcher_true in Hp as (e1 & -> & He1).
    f_equal. eapply unique_position; [exact Hu | eassumption..].
Qed.

Lemma removed_no_match this (i : nat) e :
  unique this → Query.queries this !! i = Some (Some e) →
  Forall (fun x => Query.matcher (Query.name e) x = false)
         (<[i := None]> (Query.queries this)).
Proof.
  intros Hu Hi. apply Forall_forall. intros x Hx.
  destruct (Query.matcher (Query.name e) x) eqn:Hm; [|done].
  apply matcher_true in Hm as (e1 & -> & He1).
  apply list_elem_of_lookup_1 in Hx as [j Hj].
  destruct (decide (j = i)) as [->|Hne].
  - rewrite list_lookup_insert_eq in Hj by (eapply lookup_lt_Some; eassumption).
    discriminate.
  - rewrite list_lookup_insert_ne in Hj by congruence.
    exfalso. apply Hne. eapply unique_position; [exact Hu | eassumption..].
Qed.

Lemma unset_at this (i : nat) e :
  unique this → Query.queries this !! i = Some (Some e) → i ≠ 0%nat →
  Query.queries (Query.unset this (Query.name e))
  = <[i := None]> (Query.queries this).
Proof.
  intros Hu Hi Hne. unfold Query.unset. rewrite (unique_findIndex this i e Hu Hi).
  destruct (Z.eqb_spec (Z.of_nat i) 0) as [|_]; [lia|].
  by rewrite of_nat_not_negative, Nat2Z.id.
Qed.

(** X4: in a registry with at most one entry per name, [unset] of an entry
    that sits at a position other than 0 leaves a hole there: the list
    keeps its length, so [hasQueries] answers as before, the other slots
    are untouched, and [get] of the name then answers [undefined], not
    [null]. *)
Theorem unset_leaves_a_hole this (i : nat) e :
  unique this → Query.queries this !! i = Some (Some e) → i ≠ 0%nat →
  Query.queries (Query.unset this (Query.name e))
  = <[i := None]> (Query.queries this)
  ∧ Query.hasQueries (Query.unset this (Query.name e)) = Query.hasQueries this
  ∧ Query.get (Query.unset this (Query.name e)) (Query.name e) = Query.Undefined
  ∧ unique (Query.unset this (Query.name e)).
Proof.
  intros Hu Hi Hne.
  pose proof (unset_at this i e Hu Hi Hne) as Hun.
  split; [exact Hun|]. split; [|split].
  - unfold Query.hasQueries. by rewrite Hun, length_insert.
  - unfold Query.get. rewrite Hun.
    by rewrite (findIndex_none _ _ (removed_no_match this i e Hu Hi)).
  - unfold unique in *. rewrite Hun.
    rewrite <- (take_drop_middle (Query.queries this) i (Some e)) in Hu by assumption.
    rewrite insert_take_drop by (eapply lookup_lt_Some; eassumption).
    rewrite names_app in *. unfold names at 2 in Hu. unfold names at 2.
    simpl in *. apply NoDup_app in Hu as (H1 & H2 & H3).
    apply NoDup_cons in H3 as [_ H3]. apply NoDup_app. repeat split; [done | | done].
    intros x Hx Hx'. apply (H2 x Hx). by right.
Qed.

Lemma unset_leaves_a_hole_witness :
  Query.queries (Query.unset two_entries "second") = [Some first; None]
  ∧ Query.get (Query.unset two_entries "second") "second" = Query.Undefined.
Proof.
  destruct (unset_leaves_a_hole two_entries 1 second) as (Hq & _ & Hget & _).
  - apply (bool_decide_unpack _). vm_compute. exact I.
  - reflexivity.
  - discriminate.
  - split; [exact Hq | exact Hget].
Defined.

(** X5: for a name that no entry carries, [unset] changes nothing and
    [get] answers [undefined] (where it answers [null] for the entry at
    position 0). *)
Theorem unset_and_get_of_unknown_name this n :
  n ∉ names (Query.queries this) →
  Query.unset this n = this ∧ Query.get this n = Query.Undefined.
Proof.
  intros Hnot. apply no_match_names in Hnot.
  unfold Query.unset, Query.get. by rewrite (findIndex_none _ _ Hnot).
Qed.

Lemma unset_and_get_of_unknown_name_witness :
  Query.unset two_entries "third" = two_entries
  ∧ Query.get two_entries "third" = Query.Undefined.
Proof.
  apply unset_and_get_of_unknown_name.
  apply (bool_decide_unpack _). vm_compute. exact I.
Defined.

(** X6: an entry removed by [unset] and registered again does not get its
    position back: the hole stays where it is and the new entry is
    appended, so the list is one longer than before the removal. *)
Theorem set_after_unset_appends this (i : nat) e q text :
  unique this → Query.queries this !! i = Some (Some e) → i ≠ 0%nat →
  Query.nameOrAlias q = Some (Query.name e) → Query.name e ≠ "" →
  Query.s_query q = Some text → text ≠ "" →
  ∃ this',
    Query.set (Query.unset this (Query.name e)) q = Ok this'
    ∧ Query.queries this'
      = <[i := None]> (Query.queries this)
          ++ [Some {| Query.name := Query.name e; Query.query := text;
                      Query.args := default (VObj []) (Query.s_args q) |}].
Proof.
  intros Hu Hi Hne Hn Hnonempty Hq Hqe.
  pose proof (unset_at this i e Hu Hi Hne) as Hun.
  destruct (set_returns (Query.unset this (Query.name e)) q (Query.name e) text
              Hn Hnonempty Hq Hqe) as (this' & Hset & Hqs).
  exists this'. split; [exact Hset|]. simpl in Hqs. rewrite Hun in Hqs.
  by rewrite (findIndex_none _ _ (removed_no_match this i e Hu Hi)) in Hqs.
Qed.

Lemma set_after_unset_appends_witness :
  ∃ this',
    Query.set (Query.unset two_entries "second") second_again = Ok this'
    ∧ Query.queries this'
      = [Some first; None;
         Some {| Query.name := "second"; Query.query := "second{id name}";
                 Query.args := VObj [] |}].
Proof.
  apply (set_after_unset_appends two_entries 1 second second_again "second{id name}").
  - apply (bool_decide_unpack _). vm_compute. exact I.
  - reflexivity.
  - discriminate.
  - reflexivity.
  - discriminate.
  - reflexivity.
  - discriminate.
Defined.

(** ** More on [exec] and the client *)

Lemma getQuery_fold G variables l b b' :
  foldM (fun b query => Query.__getQuery G query b variables) l b = Ok b' →
  Query.b_queries b' = Query.b_queries b ++ (Query.QEntry <$> l)
  ∧ Query.b_queryArgs b' = Query.b_queryArgs b
  ∧ Query.b_vars b' = Query.b_vars b.
Proof.
  revert b. induction l as [|e l IH]; intros b.
  - intros [= <-]. by rewrite app_nil_r.
  - rewrite foldM_cons.
    destruct (Query.__getQuery G e b variables) as [b1|err] eqn:Hget; [|done].
    apply getQuery_pushes_entry in Hget as ->. cbn. intros Hfold.
    apply IH in Hfold as (Hq & Ha & Hv). simpl in *.
    by rewrite Hq, <- app_assoc.
Qed.

Lemma exec_composes send G w rep this variables headers :
  (∃ err, Query.exec send G w rep this variables headers
          = (Query.Throws err, this, w))
  ∨ Query.exec send G w rep this variables headers
    = (Query.Resolves Query.Sentinel, this, w)
  ∨ Query.exec send G w rep this variables headers
    = send this w rep headers (document this) None.
Proof.
  unfold Query.exec.
  destruct (foldM _ _ _) as [b|err] eqn:Hfold; [|left; by eexists].
  destruct (length (Query.b_queries b) =? 0)%nat; [right; by left|].
  right. right. apply getQuery_fold in Hfold as (Hq & Ha & Hv). simpl in *.
  unfold Query.compose, document. rewrite Hq, Ha. cbn.
  rewrite <- list_fmap_compose.
  by destruct (negb (length (Query.directives this) =? 0)%nat).
Qed.

(** X7: whatever the registry, the global scope and the transport's
    answer, [exec] calls no registered callback and hands the transport at
    most one request; that request carries no variables, and its document
    is the operation keyword followed by the entries turned into the text
    of an object.  This holds for the query and for the mutation class. *)
Theorem exec_sends_at_most_one_request_without_variables
    G w rep this variables headers :
  (Client.calls (Query.exec Query.__send G w rep this variables headers).2
   = Client.calls w
   ∧ (Client.wire (Query.exec Query.__send G w rep this variables headers).2
      = Client.wire w
      ∨ ∃ u, Client.wire (Query.exec Query.__send G w rep this variables headers).2
             = Client.wire w
                 ++ [sent Client.GET u
                       {| Client.p_query := "query " +:+ document this;
                          Client.p_variables := None |} headers]))
  ∧ (Client.calls (Query.exec Mutation.__send G w rep this variables headers).2
     = Client.calls w
     ∧ (Client.wire (Query.exec Mutation.__send G w rep this variables headers).2
        = Client.wire w
        ∨ ∃ u, Client.wire (Query.exec Mutation.__send G w rep this variables headers).2
               = Client.wire w
                   ++ [sent Client.POST u
                         {| Client.p_query := "mutation " +:+ document this;
                            Client.p_variables := None |} headers])).
Proof.
  split.
  - destruct (exec_composes Query.__send G w rep this variables headers)
      as [[err ->] | [-> | ->]]; [by split; [|left].. |].
    unfold Query.__send, Client.GQLClientQuery.
    destruct (Client.configured_url (Client.proto w)) as [u|]; [|by split; [|left]].
    rewrite settle_wire. split; [done|]. right. by exists u.
  - destruct (exec_composes Mutation.__send G w rep this variables headers)
      as [[err ->] | [-> | ->]]; [by split; [|left].. |].
    unfold Mutation.__send, Client.GQLClientMutation.
    destruct (Client.configured_url (Client.proto w)) as [u|]; [|by split; [|left]].
    rewrite settle_wire. split; [done|]. right. by exists u.
Qed.

(** X8: as soon as the registry holds an entry, [exec] needs a global
    [args]: where none is declared it throws a [ReferenceError] and leaves
    the registry and the world as they were, whichever class the object
    has. *)
Theorem exec_with_an_entry_needs_global_args
    send G w rep this variables headers :
  Query.present (Query.queries this) ≠ [] → Query.g_args G = None →
  Query.exec send G w rep this variables headers
  = (Query.Throws (ReferenceError "args"), this, w).
Proof.
  intros Hsome Hargs. unfold Query.exec.
  destruct (Query.present (Query.queries this)) as [|e l]; [done|].
  rewrite foldM_cons. unfold Query.__getQuery. by rewrite Hargs.
Qed.

Lemma exec_with_an_entry_needs_global_args_witness :
  Query.exec Mutation.__send no_globals configured (Client.Fulfilled two_errors)
    two_entries ∅ None
  = (Query.Throws (ReferenceError "args"), two_entries, configured).
Proof.
  apply exec_with_an_entry_needs_global_args; [discriminate | reflexivity].
Defined.

Lemma client_mutation_headers w hdrs q w' :
  Client.GQLClientMutation w hdrs q = Ok w' →
  ∃ u, Client.wire w' = Client.wire w ++ [sent Client.POST u q hdrs]
       ∧ Client.headers (Client.proto w')
         = (fun h => default ∅ hdrs ∪ h) <$> Client.headers (Client.proto w).
Proof.
  unfold Client.GQLClientMutation.
  destruct (Client.configured_url (Client.proto w)) as [u|]; [|discriminate].
  intros [= <-]. by exists u.
Qed.

(** X9: a client call is refused, with nothing sent and nothing changed,
    until [GQLConfig] has stored a url that is not empty; after a
    [GQLConfig] that gives one, the call goes to that url, whatever was
    configured before, through [get] for a query and [post] for a
    mutation. *)
Theorem client_call_needs_a_configured_url w options hdrs q :
  (Client.configured_url (Client.proto w) = None →
     Client.GQLClientQuery w hdrs q = Throw (Error "GQL is not configured!")
     ∧ Client.GQLClientMutation w hdrs q = Throw (Error "GQL is not configured!"))
  ∧ (∀ u, Client.url options = Some u → u ≠ "" →
       (∃ w', Client.GQLClientQuery (Client.GQLConfig options w) hdrs q = Ok w'
              ∧ Client.wire w' = Client.wire w ++ [sent Client.GET u q hdrs])
       ∧ (∃ w', Client.GQLClientMutation (Client.GQLConfig options w) hdrs q = Ok w'
                ∧ Client.wire w' = Client.wire w ++ [sent Client.POST u q hdrs])).
Proof.
  split.
  - intros Hnone. unfold Client.GQLClientQuery, Client.GQLClientMutation.
    by rewrite Hnone.
  - intros u Hu Hne.
    assert (Hconf : Client.configured_url (Client.proto (Client.GQLConfig options w))
                    = Some u).
    { unfold Client.configured_url, Client.GQLConfig. simpl. rewrite Hu.
      by destruct (String.eqb_spec u ""). }
    unfold Client.GQLClientQuery, Client.GQLClientMutation. rewrite Hconf.
    split; eexists; (split; [reflexivity|]); reflexivity.
Qed.

(** X10: the headers of a call stay in the configuration for the calls
    that follow, later values winning, and yet no request carries more
    than the headers of its own call: after two calls on top of the
    configured headers [h0], the configuration holds the second call's
    headers over the first call's over [h0], and the two requests carry
    the first and the second call's headers. *)
Theorem call_headers_pile_up_in_the_configuration w h0 h1 q1 w1 h2 q2 w2 :
  Client.headers (Client.proto w) = Some h0 →
  Client.GQLClientQuery w h1 q1 = Ok w1 →
  Client.GQLClientQuery w1 h2 q2 = Ok w2 →
  Client.headers (Client.proto w2) = Some (default ∅ h2 ∪ (default ∅ h1 ∪ h0))
  ∧ ∃ u, Client.wire w2
         = Client.wire w ++ [sent Client.GET u q1 h1; sent Client.GET u q2 h2].
Proof.
  intros Hh0 Hcall1 Hcall2.
  assert (Hurl : Client.url (Client.proto w1) = Client.url (Client.proto w)).
  { unfold Client.GQLClientQuery in Hcall1.
    destruct (Client.configured_url (Client.proto w)); [|discriminate].
    by injection Hcall1 as <-. }
  unfold Client.GQLClientQuery in Hcall1, Hcall2.
  unfold Client.configured_url in Hcall2. rewrite Hurl in Hcall2.
  fold (Client.configured_url (Client.proto w)) in Hcall2.
  destruct (Client.configured_url (Client.proto w)) as [u|]; [|discriminate].
  injection Hcall1 as <-. injection Hcall2 as <-. simpl. rewrite Hh0. simpl.
  split; [reflexivity|]. exists u. by rewrite <- app_assoc.
Qed.

Lemma call_headers_pile_up_in_the_configuration_witness :
  ∃ w1 w2,
    Client.GQLClientQuery configured (Some {["B" := VStr "2"]}) a_query = Ok w1
    ∧ Client.GQLClientQuery w1 None a_query = Ok w2
    ∧ Client.headers (Client.proto w2)
      = Some (∅ ∪ ({["B" := VStr "2"]} ∪ {["A" := VStr "1"]})).
Proof.
  eexists. eexists. split; [reflexivity|]. split; [reflexivity|].
  exact (proj1 (call_headers_pile_up_in_the_configuration configured
                  {["A" := VStr "1"]} (Some {["B" := VStr "2"]}) a_query _
                  None a_query _ eq_refl eq_refl eq_refl)).
Defined.

(** X11: [GQLClientUpload], once a url is configured and [FormData]
    exists, writes the call's headers into the configuration, marks the
    call's own headers with [X-GQL-Upload], and then reads [_headers],
    which the module never binds: where no such global is declared it
    throws a [ReferenceError] and nothing is handed to the transport; where
    one is, the request carries that global as its headers, not the call's
    headers and not the mark, with one form entry per file under the given
    field name. *)
Theorem upload_reads_an_unbound_headers_variable S w hdrs q name files u :
  Client.configured_url (Client.proto w) = Some u →
  Client.has_FormData S = true →
  Client.wire (Client.GQLClientUpload S w hdrs q name files).1.2 = Client.wire w
  ∧ Client.headers (Client.proto (Client.GQLClientUpload S w hdrs q name files).1.2)
    = (fun h => default ∅ hdrs ∪ h) <$> Client.headers (Client.proto w)
  ∧ (Client.GQLClientUpload S w hdrs q name files).2
    = <["X-GQL-Upload" := VBool true]> (default ∅ hdrs)
  ∧ (Client.GQLClientUpload S w hdrs q name files).1.1
    = match Client.g__headers S with
      | None => Throw (ReferenceError "_headers")
      | Some g =>
          Ok {| Client.u_headers := g;
                Client.u_data := (fun f => (name, f, Client.file_name f)) <$> files;
                Client.u_method := Client.POST;
                Client.u_params := q;
                Client.u_url := u |}
      end.
Proof.
  intros Hu Hform. unfold Client.GQLClientUpload. rewrite Hu, Hform. simpl.
  by destruct (Client.g__headers S).
Qed.

Lemma upload_reads_an_unbound_headers_variable_witness :
  (Client.GQLClientUpload
     {| Client.has_FormData := true; Client.g__headers := None |}
     configured (Some {["B" := VStr "2"]}) a_query "avatar"
     [{| Client.file_name := "me.png"; Client.file_id := 1 |}]).1.1
  = Throw (ReferenceError "_headers").
Proof.
  exact (proj2 (proj2 (proj2
    (upload_reads_an_unbound_headers_variable
       {| Client.has_FormData := true; Client.g__headers := None |}
       configured (Some {["B" := VStr "2"]}) a_query "avatar"
       [{| Client.file_name := "me.png"; Client.file_id := 1 |}]
       "http://gql" eq_refl eq_refl)))).
Defined.

(** ** More on the response handlers, called with [this] bound *)




(** X13: the edges of the handler.  A response that is falsy is reported
    as a [serverError] with the fixed message; a response that is an empty
    list, and a body whose [errors] is an empty list, make the handler
    throw a [TypeError] (an empty list is truthy, and [pop] on it gives
    [undefined]); a response with no [data] property makes it throw too. *)
Theorem handleResponse_edges this :
  (∀ res, truthy res = false →
     Query.__handleResponse (Some this) res
     = Ok (Query.Tuple
             (<["serverError" :=
                  VObj [("message",
                         VStr "Something went wrong. Unable to process request!");
                        ("code", VStr "serverError")]]> (Query.errors this)) None,
           Query.with_errors
             (<["serverError" :=
                  VObj [("message",
                         VStr "Something went wrong. Unable to process request!");
                        ("code", VStr "serverError")]]> (Query.errors this)) this,
           []))
  ∧ Query.__handleResponse (Some this) (VArr [])
    = Throw (TypeError "Cannot read property 'message' of undefined")
  ∧ (∀ res, truthy res = true → Utils.isArray res = false →
       nullish (get_prop res "data") = false →
       get_prop (get_prop res "data") "errors" = VArr [] →
       Query.__handleResponse (Some this) res
       = Throw (TypeError "Cannot read property 'message' of undefined"))
  ∧ (∀ res, truthy res = true → Utils.isArray res = false →
       nullish (get_prop res "data") = true →
       Query.__handleResponse (Some this) res
       = Throw (TypeError "Cannot destructure property 'data' of undefined")).
Proof.
  repeat split.
  - intros res Hres. unfold Query.__handleResponse. by rewrite Hres.
  - intros res Hres Harr Hbody Herrs. unfold Query.__handleResponse.
    by rewrite Hres, Harr, Hbody, Herrs.
  - intros res Hres Harr Hbody. unfold Query.__handleResponse.
    by rewrite Hres, Harr, Hbody.
Qed.


(** ** More on the store: snapshots and notifications *)

Lemma extend_empty (m : gmap string value) : Utils.extend ∅ m = m.
Proof. unfold Utils.extend. apply (right_id_L ∅ (∪)). Qed.

Lemma callSubscribers_notices this old :
  QueryState.__callSubscribers this old
  = notices (QueryState.subscribers this) (QueryState.state this) old.
Proof.
  unfold QueryState.__callSubscribers, notices. rewrite extend_empty.
  by destruct (QueryState.subscribers this).
Qed.





(** ** More on the store: subscribers *)

Lemma subscribed_names n this :
  subscribed n this = 0%nat ↔ n ∉ sub_names this.
Proof.
  unfold subscribed, sub_names.
  induction (QueryState.subscribers this) as [|cb l IH]; simpl.
  - split; [intros _; apply not_elem_of_nil | done].
  - rewrite filter_cons, not_elem_of_cons.
    destruct (decide (fn_name cb = n)) as [Heq|Hne]; simpl.
    + split; [done | by intros [? _]].
    + rewrite IH. split; [by intros ?; split | by intros [_ ?]].
Qed.

Lemma subscribe_adds this f :
  fn_name f ≠ "" → subscribed (fn_name f) this = 0%nat →
  QueryState.subscribe this (QueryState.Function f)
  = (QueryState.with_subscribers (QueryState.subscribers this ++ [f]) this,
     VBool true).
Proof.
  intros Hnamed Hnone. unfold QueryState.subscribe.
  destruct (String.eqb_spec (fn_name f) ""); [done|].
  fold (subscribed (fn_name f) this). by rewrite Hnone.
Qed.

(** X18: what [subscribe] answers for a named function.  It answers
    [true] exactly when no subscriber had the name, and then the function
    is the last subscriber; when the name is taken it answers [undefined],
    not [false], and the store is as it was. *)
Theorem subscribe_answers this f :
  fn_name f ≠ "" →
  (subscribed (fn_name f) this = 0%nat →
     QueryState.subscribe this (QueryState.Function f)
     = (QueryState.with_subscribers (QueryState.subscribers this ++ [f]) this,
        VBool true))
  ∧ (subscribed (fn_name f) this ≠ 0%nat →
       QueryState.subscribe this (QueryState.Function f) = (this, VUndef))
  ∧ ((QueryState.subscribe this (QueryState.Function f)).2 = VBool true
     ↔ subscribed (fn_name f) this = 0%nat).
Proof.
  intros Hnamed. unfold QueryState.subscribe.
  destruct (String.eqb_spec (fn_name f) ""); [done|].
  fold (subscribed (fn_name f) this).
  destruct (subscribed (fn_name f) this) as [|k]; simpl; repeat split; done.
Qed.

Lemma subscribe_answers_witness :
  QueryState.subscribe (store_with ∅ [onChange1]) (QueryState.Function onChange2)
  = (store_with ∅ [onChange1], VUndef).
Proof.
  apply (subscribe_answers (store_with ∅ [onChange1]) onChange2); [discriminate|].
  vm_compute. discriminate.
Defined.

(** X19: [subscribe] then [unsubscribe] with a named function whose name
    no subscriber had gives the store back as it was. *)
Theorem unsubscribe_undoes_subscribe this f :
  fn_name f ≠ "" → subscribed (fn_name f) this = 0%nat →
  (QueryState.unsubscribe
     (QueryState.subscribe this (QueryState.Function f)).1
     (QueryState.Function f)).1 = this.
Proof.
  intros Hnamed Hnone.
  rewrite (subscribe_adds this f Hnamed Hnone). unfold QueryState.unsubscribe. destruct (String.eqb_spec (fn_name f) ""); [done|].
  simpl. rewrite filter_app, filter_cons, filter_nil.
  destruct (decide (fn_name f ≠ fn_name f)); [done|].
  rewrite app_nil_r, (filter_out_absent _ _ Hnone). by destruct this.
Qed.

Lemma unsubscribe_undoes_subscribe_witness :
  (QueryState.unsubscribe
     (QueryState.subscribe (store_with ∅ [other]) (QueryState.Function onChange1)).1
     (QueryState.Function onChange1)).1 = store_with ∅ [other].
Proof.
  apply unsubscribe_undoes_subscribe; [discriminate | reflexivity].
Defined.

Lemma sub_names_filter (P : fn → Prop) `{∀ x, Decision (P x)} (l : list fn) :
  NoDup (fn_name <$> l) → NoDup (fn_name <$> filter P l).
Proof.
  induction l as [|x l IH]; [done|]. simpl. rewrite NoDup_cons. intros [Hx Hl].
  rewrite filter_cons. destruct (decide (P x)); [|by apply IH].
  simpl. apply NoDup_cons. split; [|by apply IH].
  intros Hin. apply Hx. apply list_elem_of_fmap in Hin as (y & -> & Hy).
  apply list_elem_of_fmap. exists y. split; [done|].
  by apply list_elem_of_filter in Hy as [_ ?].
Qed.

Lemma sub_step_unique this this' :
  sub_step this this' → NoDup (sub_names this) → NoDup (sub_names this').
Proof.
  unfold sub_names. intros [s callback | s callback] Hnd.
  - destruct callback as [v|f]; simpl; [done|].
    destruct (String.eqb_spec (fn_name f) ""); [done|].
    fold (subscribed (fn_name f) s).
    destruct (subscribed (fn_name f) s) as [|k] eqn:Hcount; simpl; [|done].
    rewrite fmap_app. apply NoDup_app. split; [done|]. split; [|apply NoDup_singleton].
    intros m Hm Hm'. apply list_elem_of_singleton in Hm'. subst m.
    by apply subscribed_names in Hcount.
  - destruct callback as [v|f]; simpl; [done|].
    destruct (String.eqb_spec (fn_name f) ""); [done|].
    simpl. by apply sub_names_filter.
Qed.

(** X20: the names of the subscribers stay pairwise distinct.  If no two
    subscribers of a store share a name, then after any sequence of
    [subscribe] and [unsubscribe] calls, with any arguments, still no two
    do; in particular for a store built without subscribers. *)
Theorem subscriber_names_stay_distinct this this' :
  NoDup (sub_names this) → rtc sub_step this this' → NoDup (sub_names this').
Proof.
  intros Hnd Hsteps. induction Hsteps as [|s1 s2 s3 Hstep _ IH]; [done|].
  apply IH. by apply (sub_step_unique s1).
Qed.

Lemma subscriber_names_stay_distinct_witness :
  NoDup (sub_names
           (QueryState.subscribe
              (QueryState.subscribe (store_with ∅ []) (QueryState.Function onChange1)).1
              (QueryState.Function onChange2)).1).
Proof.
  apply (subscriber_names_stay_distinct (store_with ∅ [])).
  - constructor.
  - eapply rtc_l; [apply (step_subscribe _ (QueryState.Function onChange1))|].
    eapply rtc_l; [apply (step_subscribe _ (QueryState.Function onChange2))|].
    apply rtc_refl.
Defined.

(** ** More on the store: the arguments of the query *)





















Lemma toQuery_key_frame this key this' spec :
  QueryState.toQuery_key this key = Ok (this', spec) →
  ∃ a, this' = QueryState.with_args a this.
Proof.
  unfold QueryState.toQuery_key.
  destruct (QueryState.getArg this key) as [v|]; cbn; [|done].
  destruct (set_prop _ "value" v) as [spec'|]; cbn; [|done].
  destruct (set_prop (QueryState.args this) key spec') as [a|]; cbn; [|done].
  intros [= <- <-]. by exists a.
Qed.

Lemma toQuery_loop_frame this out keys :
  ∃ a, (QueryState.toQuery_loop this out keys).1 = QueryState.with_args a this.
Proof.
  revert this out. induction keys as [|key keys IH]; intros this out; simpl.
  - exists (QueryState.args this). by destruct this.
  - destruct (QueryState.toQuery_key this key) as [[this' spec]|] eqn:Hkey.
    + apply toQuery_key_frame in Hkey as [a ->].
      destruct (IH (QueryState.with_args a this) (assign key spec out)) as [a' ->].
      by exists a'.
    + exists (QueryState.args this). by destruct this.
Qed.

(** X26: [query] always throws, before anything is sent: [toQuery] throws
    on a declaration it cannot write to, and otherwise [gqlQuery] throws in
    the constructor of the registry.  The world, the snapshot and the
    subscribers are as before, and the two callbacks given to [query] stay
    stored on the store.  Nor would a registry accept what [toQuery]
    returns, had one been built: the object has a [name] and no
    [nameOrAlias], and [set] refuses it. *)
Theorem store_query_always_throws G w rep this onSuccess onError :
  (∃ err, (QueryState.query G w rep this onSuccess onError).1.1 = Query.Throws err)
  ∧ (QueryState.query G w rep this onSuccess onError).2 = w
  ∧ QueryState.successCallback (QueryState.query G w rep this onSuccess onError).1.2
    = onSuccess
  ∧ QueryState.errorCallback (QueryState.query G w rep this onSuccess onError).1.2
    = onError
  ∧ QueryState.state
      (QueryState.store_of (QueryState.query G w rep this onSuccess onError).1.2)
    = QueryState.state (QueryState.store_of this)
  ∧ QueryState.subscribers
      (QueryState.store_of (QueryState.query G w rep this onSuccess onError).1.2)
    = QueryState.subscribers (QueryState.store_of this)
  ∧ (∀ registry d,
       Query.set registry (QueryState.as_spec this d)
       = Throw (Error "Missing query name!")).
Proof.
  unfold QueryState.query, QueryState.toQuery. simpl.
  destruct (toQuery_loop_frame (QueryState.store_of this) []
              (Utils.keys (QueryState.args (QueryState.store_of this))))
    as [a Hframe].
  destruct (QueryState.toQuery_loop _ _ _) as [st [out|err]]; simpl in *; subst st.
  - repeat split. by eexists.
  - repeat split. by eexists.
Qed.

(** X27: the two handlers the store hands to the runner.  [__onSuccess]
    replaces the snapshot, notifies every subscriber with the new and the
    previous snapshot, and only then calls the caller's success callback,
    with the new snapshot; [__onError] calls the caller's error callback
    with the error and leaves the store alone.  Either one forgets both
    callbacks: a response handled after it notifies the subscribers and
    calls no callback of the caller, and an error handled after it calls
    nothing. *)
Theorem store_handlers_call_the_callbacks_once this res res' err :
  (QueryState.__onSuccess this res).2
  = (QueryState.Notified
       <$> notices (QueryState.subscribers (QueryState.store_of this)) res
             (QueryState.state (QueryState.store_of this)))
    ++ match QueryState.successCallback this with
       | Some f => [QueryState.Succeeded f res]
       | None => []
       end
  ∧ QueryState.state (QueryState.store_of (QueryState.__onSuccess this res).1) = res
  ∧ (QueryState.__onError this err).2
    = match QueryState.errorCallback this with
      | Some f => [QueryState.Errored f err]
      | None => []
      end
  ∧ QueryState.store_of (QueryState.__onError this err).1 = QueryState.store_of this
  ∧ (QueryState.__onSuccess (QueryState.__onSuccess this res).1 res').2
    = QueryState.Notified
        <$> notices (QueryState.subscribers (QueryState.store_of this)) res' res
  ∧ (QueryState.__onSuccess (QueryState.__onError this err).1 res').2
    = QueryState.Notified
        <$> notices (QueryState.subscribers (QueryState.store_of this)) res'
              (QueryState.state (QueryState.store_of this))
  ∧ (QueryState.__onError (QueryState.__onSuccess this res).1 err).2 = []
  ∧ (QueryState.__onError (QueryState.__onError this err).1 err).2 = [].
Proof.
  unfold QueryState.__onSuccess, QueryState.__onError, QueryState.resetSync.
  simpl. rewrite !callSubscribers_notices. simpl.
  unfold QueryState.prepareState. rewrite !extend_empty.
  repeat split; try by rewrite app_nil_r.
Qed.
